(** * SPAM calibration example notebook: counts post-processing and workflow

    A shallow embedding of [examples/spam_example.ipynb].

    The notebook defines three functions of its own, [binseq],
    [probs_from_counts] and [JSD], and drives the [SpamCorrecter] class of
    [pytket.utils.spam] through a calibrate-then-correct workflow.

    Numbers: the notebook computes with numpy [float64] arrays and, for the
    counts, [int64] sums.  The functions are embedded twice.  First in
    exact arithmetic ([R]): wherever numpy would leave the finite numbers
    (a division by zero, an infinite relative entropy) and carry [inf] or
    [nan] onwards, that embedding stops with the outcome [NonFinite] and
    says nothing about what follows; its statements hold of the code up to
    the rounding of [float64], and for integer counts only as long as no
    [int64] sum wraps around.  Then, in module [F64], number for number in
    binary64 and two's complement [int64], with the logarithm of the C
    library left as an argument.  Python exceptions are the outcome
    [Raise]. *)

From Stdlib Require Import String Ascii DecimalString Floats QArith.
From Stdlib Require Import ZArith Arith Bool Lia Reals Lra Psatz List Permutation.
Import ListNotations.

Open Scope R_scope.

(** ** Outcomes of a Python computation *)

Inductive exn : Set :=
| IndexError
| ValueError.

Inductive outcome (A : Type) : Type :=
| Ok (a : A)
| Raise (e : exn)
| NonFinite.

Arguments Ok {A} a.
Arguments Raise {A} e.
Arguments NonFinite {A}.

Definition bind {A B : Type} (m : outcome A) (k : A -> outcome B) : outcome B :=
  match m with
  | Ok a => k a
  | Raise e => Raise e
  | NonFinite => NonFinite
  end.

Notation "x <- m ;; k" := (bind m (fun x => k))
  (at level 61, m at next level, right associativity).

(** ** The slice of numpy and scipy the notebook uses *)

(** [np.sum] of a one-dimensional array. *)
Definition np_sum (v : list R) : R := fold_right Rplus 0 v.

(** [np.linalg.norm(v, ord=1)]: the sum of the absolute values. *)
Definition norm1 (v : list R) : R := np_sum (map Rabs v).

(** [v / d] for an array (or list) [v] and a scalar [d].  numpy divides
    element by element; a zero divisor turns every element into [inf] or
    [nan], so only the empty array survives it. *)
Definition np_div (v : list R) (d : R) : outcome (list R) :=
  if Req_dec_T d 0
  then match v with
       | [] => Ok []
       | _ :: _ => NonFinite
       end
  else Ok (map (fun x => x / d) v).

(** [c * v] for a scalar [c] and an array [v]. *)
Definition np_scale (c : R) (v : list R) : list R := map (Rmult c) v.

Fixpoint map2 {A B C : Type} (f : A -> B -> C) (a : list A) (b : list B) : list C :=
  match a, b with
  | x :: a', y :: b' => f x y :: map2 f a' b'
  | _, _ => []
  end.

(** [a + b] for one-dimensional arrays: element by element when the shapes
    agree, a length-one operand is broadcast, any other pair of shapes
    raises [ValueError]. *)
Definition np_add (a b : list R) : outcome (list R) :=
  if Nat.eqb (length a) (length b) then Ok (map2 Rplus a b)
  else match a, b with
       | [x], _ => Ok (map (Rplus x) b)
       | _, [y] => Ok (map (fun x => x + y) a)
       | _, _ => Raise ValueError
       end.

(** [scipy.special.rel_entr]: [x * log (x / y)] when both are positive,
    [0] when [x = 0] and [y >= 0], and [inf] ([None] here) otherwise. *)
Definition rel_entr (x y : R) : option R :=
  if Rlt_dec 0 x
  then if Rlt_dec 0 y then Some (x * ln (x / y)) else None
  else if Req_dec_T x 0
       then if Rle_dec 0 y then Some 0 else None
       else None.

Fixpoint all_finite (v : list (option R)) : outcome (list R) :=
  match v with
  | [] => Ok []
  | None :: _ => NonFinite
  | Some x :: v' => r <- all_finite v' ;; Ok (x :: r)
  end.

(** [scipy.stats.entropy(pk, qk)], natural logarithm: both arguments are
    normalised to sum one, the shapes must agree, and the result is the sum
    of the element-wise relative entropies. *)
Definition entropy (pk qk : list R) : outcome R :=
  pk1 <- np_div pk (np_sum pk) ;;
  if Nat.eqb (length qk) (length pk)
  then qk1 <- np_div qk (np_sum qk) ;;
       vec <- all_finite (map2 rel_entr pk1 qk1) ;;
       Ok (np_sum vec)
  else Raise ValueError.

(** ** Python strings and [itertools.product] *)

(** [str(e)] for an integer [e]. *)
Definition str_int (e : Z) : string := NilZero.string_of_int (Z.to_int e).

(** [''.join(l)]. *)
Definition join (l : list string) : string := String.concat "" l.

(** [itertools.product(pool, repeat=k)], following the reference
    implementation: start from the single empty tuple and, [k] times,
    extend every tuple by every element of the pool. *)
Fixpoint product_repeat {A : Type} (pool : list A) (k : nat) : list (list A) :=
  match k with
  | O => [[]]
  | S k' => flat_map (fun x => map (fun y => x ++ [y]) pool) (product_repeat pool k')
  end.

(** ** A string-keyed [dict] with real values, in insertion order *)

Definition dict : Type := list (string * R).

(** [d[k] = v]: overwrite in place when the key is present, append otherwise. *)
Fixpoint dict_set (k : string) (v : R) (d : dict) : dict :=
  match d with
  | [] => [(k, v)]
  | (k', v') :: d' =>
      if String.eqb k k' then (k', v) :: d' else (k', v') :: dict_set k v d'
  end.

(** [d.get(k, default)]. *)
Fixpoint dict_get (k : string) (d : dict) (default : R) : R :=
  match d with
  | [] => default
  | (k', v') :: d' => if String.eqb k k' then v' else dict_get k d' default
  end.

(** ** The notebook's own functions *)

(** A counts mapping: readout tuples to numbers of shots, in the insertion
    order of the Python dict.  The keys of a dict are pairwise distinct;
    the theorems state that as [NoDup (map fst counts)]. *)
Definition Counts : Type := list (list Z * R).

(** <<
    def binseq(k):
        return [''.join(x) for x in itertools.product('01', repeat=k)]
    >> *)
Definition binseq (k : nat) : list string :=
  map join (product_repeat ["0"%string; "1"%string] k).

(** The key [''.join(str(e) for e in x)] under which [probs_from_counts]
    files the readout tuple [x]. *)
Definition key_of (x : list Z) : string := join (map str_int x).

(** In exact arithmetic ([F64.probs_from_counts] is the same function on
    integer counts in [int64] and binary64).
    <<
    def probs_from_counts(counts):
        counts_dict = dict()
        for x in counts:
            counts_dict[''.join(str(e) for e in x)]=counts[x]
        converted = []
        binary_strings = binseq(len(list(counts.keys())[0]))
        for b in binary_strings:
            converted.append(counts_dict.get(b,0))
        return converted / np.sum(converted)
    >> *)
Definition probs_from_counts (counts : Counts) : outcome (list R) :=
  let counts_dict :=
    fold_left (fun d xc => dict_set (key_of (fst xc)) (snd xc) d) counts [] in
  match counts with
  | [] => Raise IndexError
  | (x0, _) :: _ =>
      let binary_strings := binseq (length x0) in
      let converted := map (fun b => dict_get b counts_dict 0) binary_strings in
      np_div converted (np_sum converted)
  end.

(** In exact arithmetic ([F64.JSD] is the same function in binary64).
    <<
    def JSD(P, Q):
        _P = P / np.linalg.norm(P, ord=1)
        _Q = Q / np.linalg.norm(Q, ord=1)
        _M = 0.5 * (_P + _Q)
        return 0.5 * (entropy(_P, _M) + entropy(_Q, _M))
    >> *)
Definition JSD (P Q : list R) : outcome R :=
  _P <- np_div P (norm1 P) ;;
  _Q <- np_div Q (norm1 Q) ;;
  s <- np_add _P _Q ;;
  let _M := np_scale (1 / 2) s in
  e1 <- entropy _P _M ;;
  e2 <- entropy _Q _M ;;
  Ok (1 / 2 * (e1 + e2)).

(** ** Vocabulary of the statements about [probs_from_counts] *)

(** [counts[x]], and [0] for a tuple that is not a key. *)
Fixpoint counts_get (x : list Z) (counts : Counts) : R :=
  match counts with
  | [] => 0
  | (x', c) :: counts' =>
      if list_eq_dec Z.eq_dec x x' then c else counts_get x counts'
  end.

(** The total number of shots: the sum of the values. *)
Definition total (counts : Counts) : R := np_sum (map snd counts).

Definition is_bit (e : Z) : Prop := e = 0%Z \/ e = 1%Z.

(** The [i]-th bit-tuple of length [n] in lexicographic order: the [n]
    binary digits of [i], most significant first. *)
Fixpoint bin_digits (n i : nat) : list Z :=
  match n with
  | O => []
  | S n' => bin_digits n' (i / 2) ++ [Z.of_nat (i mod 2)]
  end.

(** The [i]-th binary string of length [n] in lexicographic order. *)
Definition bin_string (n i : nat) : string := key_of (bin_digits n i).

(** Sample data for the statements below: two-qubit counts in the style of
    the notebook's GHZ readouts, and two distributions over one bit. *)
Definition sample_counts : Counts := [([0; 0]%Z, 3); ([1; 1]%Z, 1)].
Definition sample_P : list R := [1; 0].
Definition sample_Q : list R := [0; 1].

(** ** [SpamCorrecter] *)

Module Spam.

(** Modelled from the spec: a "qubit identifier"; the nodes of the device
    come from [process_device], which is not among the sources.  A qubit is
    named by its index. *)
Definition Node : Type := nat.

(** Modelled from the spec: the class [SpamCorrecter] of
    [pytket.utils.spam], which the notebook imports and calls but which is
    not among the sources.  It is built from "one or more subsets of qubit
    identifiers assumed to have mutually correlated readout error". *)
Record SpamCorrecter : Type := { correlations : list (list Node) }.

(** Modelled from the spec: what a calibration circuit is made of, a
    "basis-state preparation" (bit flips) and the "measurement of all
    qubits in the subset"; the circuit class of pytket is not among the
    sources. *)
Inductive gate : Type :=
| X (q : Node)
| Measure (q : Node).

(** Modelled from the spec: a circuit, as the list of its gates. *)
Definition Circuit : Type := list gate.

(** Modelled from the spec: the computational basis states of [k] qubits,
    "all 2^k". *)
Definition basis_states (k : nat) : list (list bool) :=
  product_repeat [false; true] k.

(** Modelled from the spec: "preparing each computational basis state on
    that subset, identity elsewhere": an X gate on every qubit whose bit is
    set, nothing on the others. *)
Definition prepare (subset : list Node) (state : list bool) : Circuit :=
  flat_map (fun qb : Node * bool => if snd qb then [X (fst qb)] else [])
           (combine subset state).

(** Modelled from the spec: the size of the largest subset.  The spec calls
    the number of calibration circuits "exponential in the largest subset
    size", and the notebook "exponential in the maximum number of
    correlated" qubits. *)
Definition largest_subset (subsets : list (list Node)) : nat :=
  fold_right (fun s acc => Nat.max (length s) acc) 0%nat subsets.

(** Modelled from the spec: the calibration circuit for one basis state of
    the largest subset.  On a subset of size [k] it prepares the first [k]
    bits of that state, "identity elsewhere", each preparation "followed by
    measurement of all qubits in the subset". *)
Definition calibration_circuit (subsets : list (list Node)) (state : list bool) : Circuit :=
  flat_map (fun s => prepare s (firstn (length s) state) ++ map Measure s) subsets.

(** Modelled from the spec: [SpamCorrecter.calibration_circuits], missing
    from the sources.  The input is "one or more subsets": for no subset
    there are no circuits to speak of ([None]).  Otherwise there is one
    circuit for every basis state of the largest subset, shared by all the
    subsets, so that over the circuits "all 2^k" basis states of every
    subset of size [k] are prepared and the number of circuits is
    "exponential in the largest subset size". *)
Definition calibration_circuits (sc : SpamCorrecter) : option (list Circuit) :=
  match correlations sc with
  | [] => None
  | subsets =>
      Some (map (calibration_circuit subsets) (basis_states (largest_subset subsets)))
  end.



(** Modelled from the spec: the correction strategies of
    [SpamCorrecter.correct_counts], missing from the sources: "three
    selectable numerical strategies are exposed", "minimise" (default),
    "invert" and "bayesian". *)
Inductive method : Set :=
| minimise
| invert
| bayesian.

(** Modelled from the spec: the names under which the three strategies
    are selected. *)
Definition method_name (m : method) : string :=
  match m with
  | minimise => "minimise"
  | invert => "invert"
  | bayesian => "bayesian"
  end.

(** Modelled from the spec: the strategies that are exposed. *)
Definition methods : list method := [minimise; invert; bayesian].

(** Modelled from the spec: "minimise" is the "default". *)
Definition default_method : string := "minimise".

(** Modelled from the spec: how [correct_counts] reads its optional
    [method] argument: the default when none is given, and otherwise the
    strategy of that name, if there is one. *)
Definition select_method (arg : option string) : option method :=
  let name := match arg with
              | None => default_method
              | Some s => s
              end in
  find (fun m => String.eqb (method_name m) name) methods.

End Spam.

(** ** The notebook as a sequence of calls *)

Module Notebook.

(** The calls the code cells make, imports left out.  The generator
    expressions of cells 11 and 23 are consumed inside
    [calculate_matrices] and have no entry of their own. *)
Inductive call : Type :=
| load_account
| get_backend
| process_device
| draw_graph
| SpamCorrecter_new
| calibration_circuits
| AerBackend_new
| IBMQBackend_new
| compile_circuit
| process_circuits
| calculate_matrices
| Circuit_new
| get_counts
| correct_counts (method : option string)
| probs_from_counts_call
| JSD_call.

(** The code cells in execution order, each with its execution count.  A
    [for] loop over the calibration circuits contributes its body once per
    circuit; cell 8 printed [32] of them, and cell 22 adds the GHZ
    circuit. *)
Definition cells : list (nat * list call) :=
  [ (2, [load_account]);
    (4, [get_backend; process_device]);
    (6, [draw_graph]);
    (7, [SpamCorrecter_new]);
    (8, [calibration_circuits]);
    (10, AerBackend_new :: repeat compile_circuit 32 ++ [process_circuits]);
    (11, [calculate_matrices]);
    (13, [Circuit_new; compile_circuit; get_counts]);
    (14, [AerBackend_new; get_counts]);
    (15, [correct_counts None]);
    (18, [probs_from_counts_call; probs_from_counts_call; probs_from_counts_call]);
    (19, [JSD_call; JSD_call]);
    (20, [correct_counts (Some "bayesian"%string); probs_from_counts_call;
          JSD_call; JSD_call]);
    (21, [IBMQBackend_new]);
    (22, repeat compile_circuit 33 ++ [process_circuits]);
    (23, [calculate_matrices]);
    (24, [get_counts; probs_from_counts_call]);
    (25, [correct_counts None; correct_counts (Some "bayesian"%string);
          probs_from_counts_call; probs_from_counts_call;
          JSD_call; JSD_call; JSD_call]) ]%nat.

Definition workflow : list call := flat_map snd cells.

(** Whether the matrices of the current [SpamCorrecter] object have been
    computed: a new object has none, [calculate_matrices] computes them. *)
Definition step (ready : bool) (c : call) : bool :=
  match c with
  | SpamCorrecter_new => false
  | calculate_matrices => true
  | _ => ready
  end.

Definition run (l : list call) : bool := fold_left step l false.

Definition is_correct_counts (c : call) : bool :=
  match c with
  | correct_counts _ => true
  | _ => false
  end.

(** Every [correct_counts] of [l] is reached with the matrices computed,
    starting from [ready]. *)
Fixpoint corrections_ready (ready : bool) (l : list call) : bool :=
  match l with
  | [] => true
  | c :: l' =>
      (if is_correct_counts c then ready else true) &&
      corrections_ready (step ready c) l'
  end.

(** The calls up to the first correction (cells 2 to 14), and after it. *)
Definition before_first_correction : list call := flat_map snd (firstn 9 cells).
Definition after_first_correction : list call := flat_map snd (skipn 10 cells).

End Notebook.

(** ** The notebook's variables: where each is assigned and read *)

Module Dataflow.

(** A statement of a code cell, reduced to the names it binds and the
    names it reads.  An [import] and a [def] bind a name; a call statement
    or a [print] binds none; a [for] loop binds its variable.  The names
    local to a comprehension or generator expression are left out, and so
    are the names a function body reads when it is called. *)
Record stmt : Type := Stmt { cell : nat; assigns : list string; reads : list string }.

Definition program : list stmt :=
  [ Stmt 1 ["SpamCorrecter"] [];
    Stmt 2 ["IBMQ"] [];
    Stmt 2 [] ["IBMQ"];
    Stmt 3 ["process_device"] [];
    Stmt 4 ["ibmq_ourense_backend"] ["IBMQ"];
    Stmt 4 ["pytket_ourense_device"] ["process_device"; "ibmq_ourense_backend"];
    Stmt 5 ["nx"] [];
    Stmt 5 ["plt"] [];
    Stmt 6 ["ourense_graph"] ["nx"; "pytket_ourense_device"];
    Stmt 6 [] ["nx"; "ourense_graph"];
    Stmt 7 ["n_shots"] [];
    Stmt 7 ["ourense_node_subsets"] ["pytket_ourense_device"];
    Stmt 7 ["ourense_spam"] ["SpamCorrecter"; "ourense_node_subsets"];
    Stmt 8 ["calibration_circuits"] ["ourense_spam"];
    Stmt 8 [] ["calibration_circuits"];
    Stmt 9 ["AerBackend"] [];
    Stmt 9 ["NoiseModel"] [];
    Stmt 10 ["pytket_noisy_sim_backend"]
            ["AerBackend"; "NoiseModel"; "ibmq_ourense_backend"];
    Stmt 10 ["c"] ["calibration_circuits"];
    Stmt 10 [] ["pytket_noisy_sim_backend"; "c"];
    Stmt 10 ["sim_handles"]
            ["pytket_noisy_sim_backend"; "calibration_circuits"; "n_shots"];
    Stmt 11 ["sim_count_results"] ["pytket_noisy_sim_backend"; "sim_handles"];
    Stmt 11 [] ["ourense_spam"; "sim_count_results"];
    Stmt 12 ["Circuit"] [];
    Stmt 13 ["ghz_circuit"] ["Circuit"; "pytket_ourense_device"];
    Stmt 13 [] ["pytket_noisy_sim_backend"; "ghz_circuit"];
    Stmt 13 ["ghz_noisy_counts"] ["pytket_noisy_sim_backend"; "ghz_circuit"; "n_shots"];
    Stmt 14 ["pytket_noiseless_sim_backend"] ["AerBackend"];
    Stmt 14 ["ghz_noiseless_counts"]
            ["pytket_noiseless_sim_backend"; "ghz_circuit"; "n_shots"];
    Stmt 15 ["ghz_spam_corrected_counts"]
            ["ourense_spam"; "ghz_noisy_counts"; "ghz_circuit"];
    Stmt 16 ["entropy"] [];
    Stmt 16 ["np"] [];
    Stmt 16 ["itertools"] [];
    Stmt 17 ["binseq"] [];
    Stmt 17 ["probs_from_counts"] [];
    Stmt 17 ["JSD"] [];
    Stmt 18 ["ghz_noiseless_probabilities"] ["probs_from_counts"; "ghz_noiseless_counts"];
    Stmt 18 ["ghz_noisy_probabilities"] ["probs_from_counts"; "ghz_noisy_counts"];
    Stmt 18 ["ghz_spam_corrected_probabilities"]
            ["probs_from_counts"; "ghz_spam_corrected_counts"];
    Stmt 19 [] ["JSD"; "ghz_noiseless_probabilities"; "ghz_noisy_probabilities"];
    Stmt 19 [] ["JSD"; "ghz_noiseless_probabilities"; "ghz_spam_corrected_probabilities"];
    Stmt 20 ["ghz_bayesian_corrected_counts"]
            ["ourense_spam"; "ghz_noisy_counts"; "ghz_circuit"];
    Stmt 20 ["ghz_bayesian_probabilities"]
            ["probs_from_counts"; "ghz_bayesian_corrected_counts"];
    Stmt 20 [] ["JSD"; "ghz_noiseless_probabilities"; "ghz_spam_corrected_probabilities"];
    Stmt 20 [] ["JSD"; "ghz_noiseless_probabilities"; "ghz_bayesian_probabilities"];
    Stmt 21 ["IBMQBackend"] [];
    Stmt 21 ["pytket_ourense_backend"] ["IBMQBackend"];
    Stmt 22 ["all_circuits"] ["calibration_circuits"; "ghz_circuit"];
    Stmt 22 ["c"] ["all_circuits"];
    Stmt 22 [] ["pytket_ourense_backend"; "c"];
    Stmt 22 ["ourense_handles"] ["pytket_ourense_backend"; "all_circuits"; "n_shots"];
    Stmt 23 ["ourense_calibration_shot_results"]
            ["pytket_ourense_backend"; "n_shots"; "ourense_handles"];
    Stmt 23 [] ["ourense_spam"; "ourense_calibration_shot_results"];
    Stmt 24 ["ghz_ourense_counts"] ["pytket_ourense_backend"; "ourense_handles"];
    Stmt 24 ["ghz_ourense_probabilities"] ["probs_from_counts"; "ghz_ourense_counts"];
    Stmt 25 ["ghz_spam_corrected_ourense_counts"]
            ["ourense_spam"; "ghz_ourense_counts"; "ghz_circuit"];
    Stmt 25 ["ghz_bayesian_corrected_counts"]
            ["ourense_spam"; "ghz_ourense_counts"; "ghz_circuit"];
    Stmt 25 ["ghz_spam_corrected_ourense_probabilities"]
            ["probs_from_counts"; "ghz_spam_corrected_counts"];
    Stmt 25 ["ghz_bayesian_probabilities"]
            ["probs_from_counts"; "ghz_bayesian_corrected_counts"];
    Stmt 25 [] ["JSD"; "ghz_noiseless_probabilities"; "ghz_ourense_probabilities"];
    Stmt 25 [] ["JSD"; "ghz_noiseless_probabilities";
                "ghz_spam_corrected_ourense_probabilities"];
    Stmt 25 [] ["JSD"; "ghz_noiseless_probabilities"; "ghz_bayesian_probabilities"] ]%string%nat.

Definition mentions (v : string) (names : list string) : bool :=
  existsb (String.eqb v) names.

(** The statements that assign [v], and those that read it. *)
Definition definitions (v : string) (p : list stmt) : list stmt :=
  filter (fun s => mentions v (assigns s)) p.

Definition uses (v : string) (p : list stmt) : list stmt :=
  filter (fun s => mentions v (reads s)) p.

(** The binding of [v] that a statement placed after the prefix [pre]
    sees: the last assignment to [v] in [pre]. *)
Definition reaching (v : string) (pre : list stmt) : option stmt :=
  match rev (definitions v pre) with
  | [] => None
  | s :: _ => Some s
  end.

End Dataflow.

(** ** The same functions in binary64 and int64 arithmetic *)

Module F64.

(** The counts of a backend are Python integers.  numpy turns a list of
    them into an [int64] array (every count is taken to fit [int64]), adds
    them in two's complement and divides in [float64].  Floating-point
    numbers are the primitive binary64 numbers of the prover. *)
Definition Counts : Type := list (list Z * Z).

Definition fits_int64 (z : Z) : Prop := (- 2 ^ 63 <= z < 2 ^ 63)%Z.

(** Two's complement wrap-around of a 64-bit signed integer. *)
Definition wrap (z : Z) : Z := ((z + 2 ^ 63) mod 2 ^ 64 - 2 ^ 63)%Z.

(** [np.sum] of an [int64] array: 64-bit additions, of which any order
    gives the same result. *)
Definition np_sum_int64 (v : list Z) : Z :=
  fold_left (fun acc a => wrap (acc + a)) v 0%Z.

(** The cast of an [int64] to [float64], rounding to nearest, ties to even. *)
Definition of_int64 (z : Z) : float := SF2Prim (binary_normalize prec emax z 0 false).

(** [v / d] for a list [v] of integers and an [int64] scalar [d]: numpy's
    true division casts both sides to [float64] and divides element by
    element; a division by zero gives [nan] or an infinity, no exception. *)
Definition np_div_int64 (v : list Z) (d : Z) : list float :=
  map (fun a => (of_int64 a / of_int64 d)%float) v.

Definition dict : Type := list (string * Z).

Fixpoint dict_set (k : string) (v : Z) (d : dict) : dict :=
  match d with
  | [] => [(k, v)]
  | (k', v') :: d' =>
      if String.eqb k k' then (k', v) :: d' else (k', v') :: dict_set k v d'
  end.

Fixpoint dict_get (k : string) (d : dict) (default : Z) : Z :=
  match d with
  | [] => default
  | (k', v') :: d' => if String.eqb k k' then v' else dict_get k d' default
  end.

(** [probs_from_counts] on integer counts, number for number as numpy
    computes it. *)
Definition probs_from_counts (counts : Counts) : outcome (list float) :=
  let counts_dict :=
    fold_left (fun d xc => dict_set (key_of (fst xc)) (snd xc) d) counts [] in
  match counts with
  | [] => Raise IndexError
  | (x0, _) :: _ =>
      let binary_strings := binseq (length x0) in
      let converted := map (fun b => dict_get b counts_dict 0%Z) binary_strings in
      Ok (np_div_int64 converted (np_sum_int64 converted))
  end.

(** [counts[x]], and [0] for a tuple that is not a key. *)
Fixpoint counts_get (x : list Z) (counts : Counts) : Z :=
  match counts with
  | [] => 0%Z
  | (x', c) :: counts' =>
      if list_eq_dec Z.eq_dec x x' then c else counts_get x counts'
  end.

(** The total number of shots, as an integer. *)
Definition total (counts : Counts) : Z := fold_right Z.add 0%Z (map snd counts).

(** The exact value of a finite binary64 number, as a rational. *)
Definition exact (f : float) : Q :=
  match Prim2SF f with
  | S754_finite s m e =>
      (inject_Z (if s then Z.neg m else Z.pos m) * Qpower 2 e)%Q
  | _ => 0%Q
  end.

(** [np.sum] of a [float64] array of fewer than eight elements, which numpy
    adds one after the other starting from zero.  Longer arrays are added
    in blocks and pairwise; they are outside this definition ([None]). *)
Definition np_sum (v : list float) : option float :=
  if (length v <? 8)%nat then Some (fold_left PrimFloat.add v 0%float) else None.

(** [np.linalg.norm(v, ord=1)]. *)
Definition norm1 (v : list float) : option float := np_sum (map PrimFloat.abs v).

(** [c * v] and [v / d] for a scalar and a [float64] array. *)
Definition np_scale (c : float) (v : list float) : list float := map (PrimFloat.mul c) v.
Definition np_div (v : list float) (d : float) : list float :=
  map (fun x => (x / d)%float) v.

(** [a + b] for one-dimensional [float64] arrays, with numpy's broadcasting
    of a length-one operand. *)
Definition np_add (a b : list float) : outcome (list float) :=
  if Nat.eqb (length a) (length b) then Ok (map2 PrimFloat.add a b)
  else match a, b with
       | [x], _ => Ok (map (PrimFloat.add x) b)
       | _, [y] => Ok (map (fun x => (x + y)%float) a)
       | _, _ => Raise ValueError
       end.

(** [scipy.special.rel_entr] in [float64].  The logarithm is that of the C
    library, which is not specified bit for bit: it is an argument. *)
Definition rel_entr (log : float -> float) (x y : float) : float :=
  if PrimFloat.is_nan x || PrimFloat.is_nan y then nan
  else if (0 <? x)%float && (0 <? y)%float then (x * log (x / y))%float
  else if (x =? 0)%float && (0 <=? y)%float then 0%float
  else infinity.

(** [scipy.stats.entropy(pk, qk)] in [float64]. *)
Definition entropy (log : float -> float) (pk qk : list float) : option (outcome float) :=
  match np_sum pk with
  | None => None
  | Some sp =>
      let pk1 := np_div (np_scale 1 pk) sp in
      if Nat.eqb (length qk) (length pk)
      then match np_sum qk with
           | None => None
           | Some sq =>
               let qk1 := np_div (np_scale 1 qk) sq in
               match np_sum (map2 (rel_entr log) pk1 qk1) with
               | None => None
               | Some s => Some (Ok s)
               end
           end
      else Some (Raise ValueError)
  end.

(** [JSD] in [float64]; [None] where a sum of eight or more numbers is
    needed. *)
Definition JSD (log : float -> float) (P Q : list float) : option (outcome float) :=
  match norm1 P, norm1 Q with
  | Some nP, Some nQ =>
      let _P := np_div P nP in
      let _Q := np_div Q nQ in
      match np_add _P _Q with
      | Ok s =>
          let _M := np_scale 0.5 s in
          match entropy log _P _M with
          | Some (Ok e1) =>
              match entropy log _Q _M with
              | Some (Ok e2) => Some (Ok (0.5 * (e1 + e2))%float)
              | other => other
              end
          | other => other
          end
      | Raise e => Some (Raise e)
      | NonFinite => None
      end
  | _, _ => None
  end.

(** Sample inputs: counts whose quotients are rounded, counts whose sum
    leaves [int64], an array whose norm overflows, and a small one. *)
Definition rounded_counts : Counts := [([0; 0]%Z, 1%Z); ([0; 1]%Z, 4%Z); ([1; 0]%Z, 1%Z)].
Definition wrapping_counts : Counts := [([0]%Z, (2 ^ 62)%Z); ([1]%Z, (2 ^ 62)%Z)].
Definition small_counts : Counts := [([0; 0]%Z, 3%Z); ([1; 1]%Z, 1%Z)].
Definition huge : list float := [0x1p1023%float; 0x1p1023%float].
Definition ones : list float := [1%float; 1%float].

End F64.

(** ** Vocabulary of the further statements *)

(** A string made of the characters ['0'] and ['1'] only. *)
Definition is_binary (s : string) : bool :=
  forallb (fun c => Ascii.eqb c "0" || Ascii.eqb c "1") (list_ascii_of_string s).

(** The bit-tuple a binary string spells, character by character. *)
Definition readout_of (s : string) : list Z :=
  map (fun c => if Ascii.eqb c "0" then 0%Z else 1%Z) (list_ascii_of_string s).

(** The number a bit-tuple denotes, most significant bit first. *)
Definition bits_value (x : list Z) : nat :=
  fold_left (fun acc e => (2 * acc + Z.to_nat e)%nat) x 0%nat.

(** The length of the first key, [len(list(counts.keys())[0])]. *)
Definition first_key_length (counts : Counts) : nat :=
  match counts with
  | [] => 0%nat
  | (x0, _) :: _ => length x0
  end.

(** The entries whose key is as long as the first key. *)
Definition keep_first_length (counts : Counts) : Counts :=
  filter (fun xc => Nat.eqb (length (fst xc)) (first_key_length counts)) counts.

(** The counts are small enough for [int64]: even their absolute values
    sum to less than 2^63, so that no sum of some of them wraps around. *)
Definition int64_safe (counts : Counts) : Prop :=
  np_sum (map (fun xc => Rabs (snd xc)) counts) < 2 ^ 63.

(** Every count multiplied by [k]. *)
Definition scale_counts (k : R) (counts : Counts) : Counts :=
  map (fun xc => (fst xc, k * snd xc)) counts.

(** Further sample data: counts with a key of another length, a
    reordering of [sample_counts], counts of total zero, and arrays of
    different lengths. *)
Definition sample_mixed : Counts := [([0; 0]%Z, 3); ([1]%Z, 5); ([1; 1]%Z, 1)].
Definition sample_reordered : Counts := [([1; 1]%Z, 1); ([0; 0]%Z, 3)].
Definition sample_P3 : list R := [1; 0; 1].

(** * Properties *)

(** ** Sums, division and scaling of arrays *)

Lemma np_sum_app (u v : list R) : np_sum (u ++ v) = np_sum u + np_sum v.
Proof.
  unfold np_sum. induction u as [|x u IH]; simpl; [lra|].
  rewrite IH. lra.
Qed.

Lemma np_sum_div (v : list R) (d : R) :
  np_sum (map (fun x => x / d) v) = np_sum v / d.
Proof.
  unfold np_sum. induction v as [|x v IH]; simpl.
  - unfold Rdiv. lra.
  - rewrite IH. unfold Rdiv. lra.
Qed.

Lemma np_sum_scale (c : R) (v : list R) : np_sum (np_scale c v) = c * np_sum v.
Proof.
  unfold np_sum, np_scale. induction v as [|x v IH]; simpl; [lra|].
  rewrite IH. lra.
Qed.

Lemma np_div_ok (v : list R) (d : R) :
  d <> 0 -> np_div v d = Ok (map (fun x => x / d) v).
Proof.
  intros Hd. unfold np_div. destruct (Req_dec_T d 0) as [E|_]; [contradiction|reflexivity].
Qed.

Lemma map_div_one (v : list R) : map (fun x => x / 1) v = v.
Proof.
  induction v as [|x v IH]; simpl; [reflexivity|].
  rewrite IH. f_equal. apply Rdiv_1_r.
Qed.

(** ** [itertools.product] over a two-element pool *)

Lemma product_repeat_length {A : Type} (pool : list A) (k : nat) :
  length (product_repeat pool k) = (length pool ^ k)%nat.
Proof.
  induction k as [|k IH]; simpl; [reflexivity|].
  rewrite <- IH.
  generalize (product_repeat pool k) as l.
  induction l as [|x l IHl]; simpl; [lia|].
  rewrite length_app, length_map, IHl. lia.
Qed.

Lemma product_repeat_map {A B : Type} (f : A -> B) (pool : list A) (k : nat) :
  map (map f) (product_repeat pool k) = product_repeat (map f pool) k.
Proof.
  induction k as [|k IH]; simpl; [reflexivity|].
  rewrite <- IH.
  generalize (product_repeat pool k) as l.
  induction l as [|x l IHl]; simpl; [reflexivity|].
  rewrite map_app, IHl. f_equal.
  rewrite !map_map. apply map_ext. intros y.
  rewrite map_app. reflexivity.
Qed.

Lemma nth_flat_pair {A : Type} (f g : A -> A) (l : list A) (d : A) (i : nat) :
  (i < 2 * length l)%nat ->
  nth i (flat_map (fun x => [f x; g x]) l) d =
  if Nat.eqb (i mod 2) 0 then f (nth (i / 2) l d) else g (nth (i / 2) l d).
Proof.
  revert i. induction l as [|x l IH]; intros i Hi; simpl in Hi; [lia|].
  destruct i as [|[|i]].
  - reflexivity.
  - reflexivity.
  - change (flat_map (fun x0 => [f x0; g x0]) (x :: l))
      with (f x :: g x :: flat_map (fun x0 => [f x0; g x0]) l).
    cbn [nth].
    rewrite IH by lia.
    replace (S (S i)) with (i + 1 * 2)%nat by lia.
    rewrite Nat.Div0.mod_add, Nat.div_add by lia.
    replace (i / 2 + 1)%nat with (S (i / 2)) by lia.
    reflexivity.
Qed.

(** The tuples behind [binseq]: [itertools.product] over the bits [0], [1]. *)
Lemma binseq_tuples (n : nat) :
  binseq n = map key_of (product_repeat [0%Z; 1%Z] n).
Proof.
  unfold binseq, key_of.
  change ["0"%string; "1"%string] with (map str_int [0%Z; 1%Z]).
  rewrite <- product_repeat_map, map_map. reflexivity.
Qed.

Lemma product_bits_nth (n i : nat) (d : list Z) :
  (i < 2 ^ n)%nat -> nth i (product_repeat [0%Z; 1%Z] n) d = bin_digits n i.
Proof.
  revert i. induction n as [|n IH]; intros i Hi.
  - simpl in Hi. assert (i = 0)%nat by lia. subst. reflexivity.
  - cbn [product_repeat bin_digits map].
    rewrite (nth_flat_pair (fun x => x ++ [0%Z]) (fun x => x ++ [1%Z])).
    2:{ rewrite product_repeat_length. simpl in *. lia. }
    assert (Hd : (i / 2 < 2 ^ n)%nat).
    { apply Nat.Div0.div_lt_upper_bound. simpl in Hi. lia. }
    rewrite (IH _ Hd).
    pose proof (Nat.mod_upper_bound i 2 ltac:(lia)) as Hm.
    destruct (i mod 2)%nat as [|[|m]] eqn:E; simpl; try reflexivity; lia.
Qed.

Lemma bin_digits_length (n i : nat) : length (bin_digits n i) = n.
Proof.
  revert i. induction n as [|n IH]; intros i; simpl; [reflexivity|].
  rewrite length_app, IH. simpl. lia.
Qed.

Lemma bin_digits_bits (n i : nat) : Forall is_bit (bin_digits n i).
Proof.
  revert i. induction n as [|n IH]; intros i; cbn [bin_digits]; [constructor|].
  apply Forall_app. split; [apply IH|].
  constructor; [|constructor].
  pose proof (Nat.mod_upper_bound i 2 ltac:(lia)) as Hm.
  unfold is_bit. destruct (i mod 2)%nat as [|[|m]]; simpl; [now left|now right|lia].
Qed.

Lemma product_bits_in (n : nat) (x : list Z) :
  In x (product_repeat [0%Z; 1%Z] n) <-> length x = n /\ Forall is_bit x.
Proof.
  revert x. induction n as [|n IH]; intros x.
  - simpl. split.
    + intros [<-|[]]. split; [reflexivity|constructor].
    + intros [Hl _]. left. destruct x; [reflexivity|discriminate].
  - cbn [product_repeat]. rewrite in_flat_map. split.
    + intros [y [Hy Hx]]. apply IH in Hy. destruct Hy as [Hl Hb].
      simpl in Hx. destruct Hx as [<-|[<-|[]]];
        (split; [rewrite length_app; simpl; lia|]);
        (apply Forall_app; split; [exact Hb|]);
        (constructor; [|constructor]); [now left|now right].
    + intros [Hl Hb].
      destruct (exists_last (l := x)) as [y [e Hx]].
      { intros ->. discriminate. }
      subst x. rewrite length_app in Hl. simpl in Hl.
      apply Forall_app in Hb. destruct Hb as [Hy He].
      exists y. split; [apply IH; split; [lia|exact Hy]|].
      inversion He as [|? ? Hbit _]; subst.
      destruct Hbit as [->| ->]; simpl; auto.
Qed.

Lemma product_bits_NoDup (n : nat) : NoDup (product_repeat [0%Z; 1%Z] n).
Proof.
  induction n as [|n IH]; simpl.
  - constructor; [intros []|constructor].
  - revert IH. generalize (product_repeat [0%Z; 1%Z] n) as l.
    induction l as [|x l IHl]; intros Hnd; simpl; [constructor|].
    inversion Hnd as [|? ? Hx Hl]; subst.
    constructor.
    + intros [E|Hin].
      * apply app_inj_tail in E. destruct E as [_ E]. discriminate.
      * apply in_flat_map in Hin. destruct Hin as [y [Hy Hin]].
        simpl in Hin. destruct Hin as [E|[E|[]]];
          apply app_inj_tail in E; destruct E as [E E']; try discriminate.
        subst. contradiction.
    + constructor.
      * intros Hin. apply in_flat_map in Hin. destruct Hin as [y [Hy Hin]].
        simpl in Hin. destruct Hin as [E|[E|[]]];
          apply app_inj_tail in E; destruct E as [E E']; try discriminate.
        subst. contradiction.
      * apply IHl. exact Hl.
Qed.

(** ** Keys: the string of a bit-tuple *)

Lemma join_cons (s : string) (l : list string) : join (s :: l) = (s ++ join l)%string.
Proof.
  unfold join. destruct l as [|t l]; simpl.
  - induction s as [|c s IH]; simpl; [reflexivity|]. now rewrite <- IH.
  - reflexivity.
Qed.

Lemma key_of_cons (e : Z) (x : list Z) :
  is_bit e ->
  key_of (e :: x) = String (if Z.eqb e 0 then "0"%char else "1"%char) (key_of x).
Proof.
  intros [->| ->]; unfold key_of; cbn [map]; rewrite join_cons; reflexivity.
Qed.

Lemma key_of_inj (x y : list Z) :
  Forall is_bit x -> Forall is_bit y -> key_of x = key_of y -> x = y.
Proof.
  intros Hx. revert y. induction Hx as [|e x He Hx IH]; intros y Hy E.
  - destruct Hy as [|f y Hf Hy]; [reflexivity|].
    rewrite key_of_cons in E by exact Hf. discriminate.
  - destruct Hy as [|f y Hf Hy].
    + rewrite key_of_cons in E by exact He. discriminate.
    + rewrite !key_of_cons in E by assumption.
      injection E as Ec Er.
      f_equal; [|apply IH; assumption].
      destruct He as [->| ->], Hf as [->| ->]; simpl in Ec; congruence.
Qed.

(** ** The dict that [probs_from_counts] fills *)

Lemma dict_get_set (k k' : string) (v : R) (d : dict) (default : R) :
  dict_get k (dict_set k' v d) default =
  if String.eqb k k' then v else dict_get k d default.
Proof.
  induction d as [|[k0 v0] d IH]; simpl.
  - reflexivity.
  - destruct (String.eqb k' k0) eqn:E0; simpl.
    + apply String.eqb_eq in E0. subst k0.
      destruct (String.eqb k k'); reflexivity.
    + rewrite IH. destruct (String.eqb k k0) eqn:E1; [|reflexivity].
      apply String.eqb_eq in E1. subst k0.
      rewrite String.eqb_sym, E0. reflexivity.
Qed.

Lemma counts_get_absent (x : list Z) (counts : Counts) :
  ~ In x (map fst counts) -> counts_get x counts = 0.
Proof.
  induction counts as [|[x' c] counts IH]; simpl; intros Hn; [reflexivity|].
  destruct (list_eq_dec Z.eq_dec x x') as [->|_].
  - exfalso. apply Hn. now left.
  - apply IH. intros Hin. apply Hn. now right.
Qed.

(** After the filling loop, looking a bit-tuple up under its string gives
    the count of that tuple. *)
Lemma counts_dict_get (counts : Counts) (d : dict) (y : list Z) :
  NoDup (map fst counts) ->
  Forall (fun xc => Forall is_bit (fst xc)) counts ->
  Forall is_bit y ->
  dict_get (key_of y)
    (fold_left (fun d xc => dict_set (key_of (fst xc)) (snd xc) d) counts d) 0 =
  if in_dec (list_eq_dec Z.eq_dec) y (map fst counts)
  then counts_get y counts
  else dict_get (key_of y) d 0.
Proof.
  intros Hnd Hbits Hy. revert d.
  induction counts as [|[x c] counts IH]; intros d.
  - reflexivity.
  - cbn [fold_left fst snd map counts_get].
    inversion Hnd as [|? ? Hx Hnd']; subst.
    inversion Hbits as [|? ? Hbx Hbits']; subst. cbn [fst] in Hbx.
    rewrite (IH Hnd' Hbits'), dict_get_set.
    destruct (list_eq_dec Z.eq_dec y x) as [->|Hne].
    + rewrite String.eqb_refl.
      destruct (in_dec (list_eq_dec Z.eq_dec) x (map fst counts)) as [Hin|_];
        [contradiction|].
      destruct (in_dec (list_eq_dec Z.eq_dec) x (x :: map fst counts)) as [_|Hn];
        [reflexivity|].
      exfalso. apply Hn. now left.
    + assert (Hk : String.eqb (key_of y) (key_of x) = false).
      { apply String.eqb_neq. intros E. apply Hne. now apply key_of_inj. }
      rewrite Hk.
      destruct (in_dec (list_eq_dec Z.eq_dec) y (map fst counts)) as [Hin|Hnin];
        destruct (in_dec (list_eq_dec Z.eq_dec) y (x :: map fst counts)) as [Hin'|Hnin'];
        try reflexivity.
      * exfalso. apply Hnin'. now right.
      * exfalso. destruct Hin' as [E|Hin']; [now apply Hne|contradiction].
Qed.

(** Summing the counts over a duplicate-free list of tuples that covers the
    keys gives the total. *)
Lemma np_sum_single (L : list (list Z)) (k : list Z) (c : R) (f : list Z -> R) :
  NoDup L -> In k L -> f k = 0 ->
  np_sum (map (fun x => if list_eq_dec Z.eq_dec x k then c else f x) L) =
  c + np_sum (map f L).
Proof.
  unfold np_sum.
  induction L as [|x L IH]; intros Hnd Hin Hf; [destruct Hin|].
  inversion Hnd as [|? ? Hx HL]; subst. cbn [map fold_right].
  destruct (list_eq_dec Z.eq_dec x k) as [->|Hne].
  - rewrite Hf.
    assert (E : map (fun x => if list_eq_dec Z.eq_dec x k then c else f x) L = map f L).
    { apply map_ext_in. intros a Ha.
      destruct (list_eq_dec Z.eq_dec a k) as [->|_]; [contradiction|reflexivity]. }
    rewrite E. lra.
  - destruct Hin as [E|Hin]; [contradiction|].
    rewrite (IH HL Hin Hf). lra.
Qed.

Lemma np_sum_counts (L : list (list Z)) (counts : Counts) :
  NoDup L -> NoDup (map fst counts) ->
  (forall x, In x (map fst counts) -> In x L) ->
  np_sum (map (fun x => counts_get x counts) L) = total counts.
Proof.
  intros HL. unfold total.
  induction counts as [|[k c] counts IH]; intros Hnd Hsub.
  - cbn [counts_get map]. unfold np_sum.
    clear HL Hnd Hsub. induction L as [|x L IHL]; simpl; [reflexivity|].
    rewrite IHL. simpl. lra.
  - inversion Hnd as [|? ? Hk Hnd']; subst.
    cbn [counts_get map snd].
    rewrite (np_sum_single L k c (fun x => counts_get x counts)).
    + rewrite IH; [reflexivity|exact Hnd'|].
      intros x Hx. apply Hsub. now right.
    + exact HL.
    + apply Hsub. now left.
    + now apply counts_get_absent.
Qed.

(** ** [binseq] lists the binary strings in lexicographic order *)

Lemma string_append_assoc (a b c : string) : ((a ++ b) ++ c = a ++ (b ++ c))%string.
Proof. induction a as [|x a IH]; simpl; [reflexivity|]. now rewrite IH. Qed.

Lemma string_length_append (a b : string) :
  String.length (a ++ b) = (String.length a + String.length b)%nat.
Proof. induction a as [|x a IH]; simpl; [reflexivity|]. now rewrite IH. Qed.

Lemma key_of_snoc (x : list Z) (e : Z) :
  key_of (x ++ [e]) = (key_of x ++ str_int e)%string.
Proof.
  unfold key_of. induction x as [|a x IH].
  - reflexivity.
  - cbn [map app]. rewrite !join_cons, IH, string_append_assoc. reflexivity.
Qed.

Lemma bin_string_length (n i : nat) : String.length (bin_string n i) = n.
Proof.
  unfold bin_string. revert i. induction n as [|n IH]; intros i; [reflexivity|].
  cbn [bin_digits]. rewrite key_of_snoc, string_length_append, IH.
  pose proof (Nat.mod_upper_bound i 2 ltac:(lia)) as Hm.
  destruct (i mod 2)%nat as [|[|m]]; simpl; lia.
Qed.

Lemma string_compare_refl (a : string) : String.compare a a = Eq.
Proof.
  pose proof (String.compare_antisym a a) as H.
  destruct (String.compare a a); simpl in H; congruence.
Qed.

Lemma compare_append (a b s t : string) :
  String.length a = String.length b ->
  String.compare (a ++ s) (b ++ t) =
  match String.compare a b with
  | Eq => String.compare s t
  | o => o
  end.
Proof.
  revert b. induction a as [|c a IH]; intros [|d b] Hl; simpl in *; try lia.
  - reflexivity.
  - destruct (Ascii.compare c d); try reflexivity. apply IH. lia.
Qed.

Lemma bin_string_lex (n i j : nat) :
  (i < j < 2 ^ n)%nat -> String.compare (bin_string n i) (bin_string n j) = Lt.
Proof.
  revert i j. induction n as [|n IH]; intros i j Hij.
  - simpl in Hij. lia.
  - unfold bin_string. cbn [bin_digits]. rewrite !key_of_snoc.
    fold (bin_string n (i / 2)). fold (bin_string n (j / 2)).
    rewrite compare_append by (now rewrite !bin_string_length).
    assert (Hj : (j / 2 < 2 ^ n)%nat).
    { apply Nat.Div0.div_lt_upper_bound. simpl in Hij. lia. }
    assert (Hle : (i / 2 <= j / 2)%nat) by (apply Nat.Div0.div_le_mono; lia).
    destruct (Nat.eq_dec (i / 2) (j / 2)) as [E|N].
    + rewrite E, string_compare_refl.
      pose proof (Nat.div_mod_eq i 2) as Di.
      pose proof (Nat.div_mod_eq j 2) as Dj.
      pose proof (Nat.mod_upper_bound i 2 ltac:(lia)) as Mi.
      pose proof (Nat.mod_upper_bound j 2 ltac:(lia)) as Mj.
      assert (Hi0 : (i mod 2 = 0)%nat) by lia.
      assert (Hj1 : (j mod 2 = 1)%nat) by lia.
      rewrite Hi0, Hj1. reflexivity.
    + rewrite (IH (i / 2)%nat (j / 2)%nat) by lia. reflexivity.
Qed.

(** ** [probs_from_counts] *)

Lemma binseq_length (n : nat) : length (binseq n) = (2 ^ n)%nat.
Proof. unfold binseq. rewrite length_map, product_repeat_length. reflexivity. Qed.

Lemma binseq_nth (n i : nat) :
  (i < 2 ^ n)%nat -> nth i (binseq n) ""%string = bin_string n i.
Proof.
  intros Hi. rewrite binseq_tuples.
  change ""%string with (key_of []).
  rewrite map_nth, product_bits_nth by exact Hi. reflexivity.
Qed.

(** The list [converted] that [probs_from_counts] builds holds, tuple by
    tuple in the order of [itertools.product], the count of each tuple. *)
Lemma converted_counts (counts : Counts) (n : nat) :
  NoDup (map fst counts) ->
  Forall (fun xc => length (fst xc) = n /\ Forall is_bit (fst xc)) counts ->
  map (fun b =>
         dict_get b
           (fold_left (fun d xc => dict_set (key_of (fst xc)) (snd xc) d) counts []) 0)
      (binseq n) =
  map (fun x => counts_get x counts) (product_repeat [0%Z; 1%Z] n).
Proof.
  intros Hnd Hkeys.
  rewrite binseq_tuples, map_map.
  apply map_ext_in. intros x Hx.
  apply product_bits_in in Hx. destruct Hx as [_ Hx].
  rewrite counts_dict_get; [|exact Hnd| |exact Hx].
  - destruct (in_dec (list_eq_dec Z.eq_dec) x (map fst counts)) as [_|Hn];
      [reflexivity|].
    simpl. symmetry. now apply counts_get_absent.
  - eapply Forall_impl; [|exact Hkeys]. intros a [_ Ha]. exact Ha.
Qed.

Lemma probs_from_counts_first (counts cs : Counts) (x0 : list Z) (c0 : R) :
  counts = (x0, c0) :: cs ->
  probs_from_counts counts =
  let converted :=
    map (fun b =>
           dict_get b
             (fold_left (fun d xc => dict_set (key_of (fst xc)) (snd xc) d) counts []) 0)
        (binseq (length x0)) in
  np_div converted (np_sum converted).
Proof. intros ->. reflexivity. Qed.

(** In exact arithmetic: for a non-empty counts mapping whose keys are
    bit-tuples of one length [n] and whose values sum to a positive total,
    [probs_from_counts] returns a vector of length [2^n] that sums to one;
    its [i]-th entry is the count of the [i]-th length-[n] binary string in
    lexicographic order divided by the total, with count zero for a string
    that is not a key.  The [i]-th string is the [i]-th element of
    [binseq n], the [n] binary digits of [i], and these strings increase
    strictly in the lexicographic order of [String.compare]. *)
Theorem probs_from_counts_distribution (counts : Counts) (n : nat) :
  counts <> [] ->
  NoDup (map fst counts) ->
  Forall (fun xc => length (fst xc) = n /\ Forall is_bit (fst xc)) counts ->
  0 < total counts ->
  exists v : list R,
    probs_from_counts counts = Ok v /\
    length v = (2 ^ n)%nat /\
    np_sum v = 1 /\
    (forall i : nat, (i < 2 ^ n)%nat ->
       nth i (binseq n) ""%string = bin_string n i /\
       nth i v 0 = counts_get (bin_digits n i) counts / total counts) /\
    (forall i j : nat, (i < j < 2 ^ n)%nat ->
       String.compare (bin_string n i) (bin_string n j) = Lt).
Proof.
  intros Hne Hnd Hkeys Htot.
  destruct counts as [|[x0 c0] cs] eqn:Ecounts; [contradiction|].
  rewrite <- Ecounts in *.
  assert (Hn : length x0 = n).
  { rewrite Ecounts in Hkeys. inversion Hkeys as [|? ? [Hl _] _]. exact Hl. }
  assert (Hsum : np_sum (map (fun x => counts_get x counts)
                             (product_repeat [0%Z; 1%Z] n)) = total counts).
  { apply np_sum_counts; [apply product_bits_NoDup|exact Hnd|].
    intros x Hx. apply in_map_iff in Hx. destruct Hx as [[y c] [<- Hin]].
    rewrite Forall_forall in Hkeys. apply product_bits_in. exact (Hkeys _ Hin). }
  exists (map (fun x => counts_get x counts / total counts)
              (product_repeat [0%Z; 1%Z] n)).
  split; [|split; [|split; [|split]]]; [| | | |intros i j; apply bin_string_lex].
  - rewrite (probs_from_counts_first counts cs x0 c0 Ecounts). cbv zeta.
    rewrite Hn, (converted_counts counts n Hnd Hkeys), Hsum.
    rewrite np_div_ok by lra. rewrite map_map. reflexivity.
  - rewrite length_map, product_repeat_length. reflexivity.
  - rewrite <- (map_map (fun x => counts_get x counts) (fun r => r / total counts)).
    rewrite np_sum_div, Hsum. field. lra.
  - intros i Hi. split; [now apply binseq_nth|].
    rewrite <- (product_bits_nth n i [] Hi).
    rewrite (nth_indep _ 0 (counts_get [] counts / total counts)).
    + apply (map_nth (fun x => counts_get x counts / total counts)).
    + rewrite length_map, product_repeat_length. exact Hi.
Qed.

(** C10. On the empty mapping [probs_from_counts] fails at its access to
    the first key, with [IndexError]; on every non-empty mapping the first
    key exists and neither that [IndexError] nor a [ValueError] is
    raised. *)
Theorem probs_from_counts_first_key :
  probs_from_counts [] = Raise IndexError /\
  forall counts : Counts, counts <> [] ->
    forall e : exn, probs_from_counts counts <> Raise e.
Proof.
  split; [reflexivity|].
  intros counts Hne e.
  destruct counts as [|[x0 c0] cs]; [contradiction|].
  unfold probs_from_counts, np_div.
  destruct (Req_dec_T _ 0) as [_|_]; [|discriminate].
  destruct (map _ _); discriminate.
Qed.

(** ** Shapes and outcomes of the array operations *)

Lemma map2_length {A B C : Type} (f : A -> B -> C) (a : list A) (b : list B) :
  length a = length b -> length (map2 f a b) = length a.
Proof.
  revert b. induction a as [|x a IH]; intros [|y b] H; simpl in *; try lia.
  rewrite IH; lia.
Qed.

Lemma map2_Rplus_comm (a b : list R) : map2 Rplus a b = map2 Rplus b a.
Proof.
  revert b. induction a as [|x a IH]; intros [|y b]; simpl; try reflexivity.
  rewrite IH. f_equal. apply Rplus_comm.
Qed.

Lemma np_add_same_shape (a b : list R) :
  length a = length b -> np_add a b = Ok (map2 Rplus a b).
Proof. intros H. unfold np_add. rewrite H, Nat.eqb_refl. reflexivity. Qed.

Lemma np_div_no_raise (v : list R) (d : R) (e : exn) : np_div v d <> Raise e.
Proof.
  unfold np_div. destruct (Req_dec_T d 0); [destruct v|]; discriminate.
Qed.

Lemma all_finite_no_raise (v : list (option R)) (e : exn) : all_finite v <> Raise e.
Proof.
  induction v as [|[x|] v IH]; simpl; try discriminate.
  destruct (all_finite v) as [r|e0|]; simpl; try discriminate. exact IH.
Qed.

(** On arguments of one shape [entropy] raises nothing. *)
Lemma entropy_no_raise (pk qk : list R) (e : exn) :
  length qk = length pk -> entropy pk qk <> Raise e.
Proof.
  intros H. unfold entropy.
  pose proof (np_div_no_raise pk (np_sum pk) e) as H1.
  destruct (np_div pk (np_sum pk)) as [pk1| |]; simpl; try congruence.
  rewrite H, Nat.eqb_refl.
  pose proof (np_div_no_raise qk (np_sum qk) e) as H2.
  destruct (np_div qk (np_sum qk)) as [qk1| |]; simpl; try congruence.
  pose proof (all_finite_no_raise (map2 rel_entr pk1 qk1) e) as H3.
  destruct (all_finite (map2 rel_entr pk1 qk1)); simpl; congruence.
Qed.

Lemma norm1_scale (c : R) (v : list R) :
  0 <= c -> norm1 (np_scale c v) = c * norm1 v.
Proof.
  intros Hc. unfold norm1, np_scale, np_sum.
  induction v as [|x v IH]; simpl; [lra|].
  rewrite IH, Rabs_mult, (Rabs_right c) by lra. lra.
Qed.

(** ** [JSD] *)

(** The first three lines of [JSD] on arrays of positive norm. *)
Lemma JSD_normalised (P Q : list R) :
  0 < norm1 P -> 0 < norm1 Q ->
  JSD P Q =
  (let _P := map (fun x => x / norm1 P) P in
   let _Q := map (fun x => x / norm1 Q) Q in
   s <- np_add _P _Q ;;
   let _M := np_scale (1 / 2) s in
   e1 <- entropy _P _M ;;
   e2 <- entropy _Q _M ;;
   Ok (1 / 2 * (e1 + e2))).
Proof.
  intros HP HQ. unfold JSD.
  rewrite !np_div_ok by lra. reflexivity.
Qed.

(** C4. [JSD] is symmetric on arrays of equal length and positive
    1-norm. *)
Theorem JSD_symmetric (P Q : list R) :
  length P = length Q ->
  0 < norm1 P -> 0 < norm1 Q ->
  JSD P Q = JSD Q P.
Proof.
  intros Hlen HP HQ.
  rewrite (JSD_normalised P Q HP HQ), (JSD_normalised Q P HQ HP). cbv zeta.
  set (p := map (fun x => x / norm1 P) P).
  set (q := map (fun x => x / norm1 Q) Q).
  assert (Hpq : length p = length q) by (unfold p, q; rewrite !length_map; exact Hlen).
  rewrite (np_add_same_shape p q Hpq), (np_add_same_shape q p (eq_sym Hpq)).
  rewrite (map2_Rplus_comm q p). cbn [bind].
  set (m := np_scale (1 / 2) (map2 Rplus p q)).
  assert (Hm : length m = length p).
  { unfold m, np_scale. rewrite length_map. now apply map2_length. }
  pose proof (fun e => entropy_no_raise p m e Hm) as Np.
  pose proof (fun e => entropy_no_raise q m e (eq_trans Hm Hpq)) as Nq.
  destruct (entropy p m) as [a|e|]; [|destruct (Np e); reflexivity|];
    destruct (entropy q m) as [b|e|]; try (destruct (Nq e); reflexivity);
    cbn [bind]; try reflexivity.
  f_equal. lra.
Qed.

(** C9, amended.  In exact real arithmetic [JSD] does not change when
    either argument is multiplied by a positive scalar.  In binary64 it
    can change. *)
Theorem JSD_scale_invariant (P Q : list R) (c d : R) :
  0 < norm1 P -> 0 < norm1 Q ->
  0 < c -> 0 < d ->
  JSD (np_scale c P) (np_scale d Q) = JSD P Q.
Proof.
  intros HP HQ Hc Hd.
  assert (Hs : forall (k : R) (V : list R), 0 < k -> 0 < norm1 V ->
             np_div (np_scale k V) (norm1 (np_scale k V)) = np_div V (norm1 V)).
  { intros k V Hk HV.
    rewrite norm1_scale by lra.
    rewrite !np_div_ok by nra.
    f_equal. unfold np_scale. rewrite map_map.
    apply map_ext. intros x. field. split; lra. }
  unfold JSD. rewrite (Hs c P Hc HP), (Hs d Q Hd HQ). reflexivity.
Qed.

(** ** Bounds on the relative entropy against the midpoint *)

Lemma ln_monotone (x y : R) : 0 < x -> x <= y -> ln x <= ln y.
Proof.
  intros Hx [Hlt| ->]; [|lra].
  left. now apply ln_increasing.
Qed.

Lemma ln_le_minus_one (x : R) : 0 < x -> ln x <= x - 1.
Proof.
  intros Hx.
  pose proof (exp_ineq1_le (x - 1)) as He.
  rewrite <- (ln_exp (x - 1)).
  apply ln_monotone; lra.
Qed.

(** An entry [p] of a distribution against an entry [m] of a distribution
    that is at least half of it. *)
Lemma rel_entr_bounds (p m : R) :
  0 <= p -> p <= 2 * m ->
  exists r : R, rel_entr p m = Some r /\ p - m <= r <= p * ln 2.
Proof.
  intros Hp Hm. unfold rel_entr.
  destruct (Rlt_dec 0 p) as [Hpos|Hnpos].
  - destruct (Rlt_dec 0 m) as [Hmpos|Hmn]; [|lra].
    eexists. split; [reflexivity|]. split.
    + assert (Hq : 0 < m / p) by (apply Rdiv_lt_0_compat; lra).
      pose proof (ln_le_minus_one (m / p) Hq) as Hl.
      replace (p / m) with (/ (m / p)) by (field; lra).
      rewrite ln_Rinv by exact Hq.
      assert (Hmul : p * ln (m / p) <= p * (m / p - 1)).
      { apply Rmult_le_compat_l; lra. }
      replace (p * (m / p - 1)) with (m - p) in Hmul by (field; lra).
      lra.
    + apply Rmult_le_compat_l; [lra|].
      apply ln_monotone; [apply Rdiv_lt_0_compat; lra|].
      apply (Rmult_le_reg_r m); [lra|].
      replace (p / m * m) with p by (field; lra). lra.
  - assert (p = 0) by lra. subst p.
    destruct (Req_dec_T 0 0) as [_|N]; [|contradiction].
    destruct (Rle_dec 0 m) as [_|N]; [|lra].
    exists 0. split; [reflexivity|]. lra.
Qed.

Lemma all_finite_bounds (p m : list R) :
  Forall2 (fun a b => 0 <= a /\ a <= 2 * b) p m ->
  exists vec : list R,
    all_finite (map2 rel_entr p m) = Ok vec /\
    np_sum p - np_sum m <= np_sum vec <= np_sum p * ln 2.
Proof.
  unfold np_sum.
  induction 1 as [|a b p m [Ha Hb] _ IH]; simpl.
  - exists []. split; [reflexivity|]. simpl. lra.
  - destruct (rel_entr_bounds a b Ha Hb) as [r [Er Hr]].
    destruct IH as [vec [Ev Hv]].
    exists (r :: vec). rewrite Er, Ev. split; [reflexivity|]. simpl. lra.
Qed.

Lemma entropy_bounds (p m : list R) :
  np_sum p = 1 -> np_sum m = 1 ->
  Forall2 (fun a b => 0 <= a /\ a <= 2 * b) p m ->
  exists r : R, entropy p m = Ok r /\ 0 <= r <= ln 2.
Proof.
  intros Hp Hm H.
  destruct (all_finite_bounds p m H) as [vec [Ev Hv]].
  exists (np_sum vec). split.
  - unfold entropy. rewrite Hp, Hm, !np_div_ok by lra.
    rewrite !map_div_one. cbn [bind].
    rewrite (Forall2_length H), Nat.eqb_refl, Ev. reflexivity.
  - rewrite Hp, Hm in Hv. lra.
Qed.

Lemma norm1_nonneg (v : list R) : Forall (fun x => 0 <= x) v -> norm1 v = np_sum v.
Proof.
  unfold norm1, np_sum.
  induction 1 as [|x v Hx _ IH]; simpl; [reflexivity|].
  rewrite IH, Rabs_right by lra. reflexivity.
Qed.

Lemma normalised_nonneg (v : list R) (d : R) :
  0 < d -> Forall (fun x => 0 <= x) v -> Forall (fun x => 0 <= x) (map (fun x => x / d) v).
Proof.
  intros Hd. induction 1 as [|x v Hx _ IH]; simpl; constructor; [|exact IH].
  apply Rmult_le_pos; [lra|]. left. now apply Rinv_0_lt_compat.
Qed.

Lemma midpoint_sum (p q : list R) :
  length p = length q ->
  np_sum (np_scale (1 / 2) (map2 Rplus p q)) = 1 / 2 * (np_sum p + np_sum q).
Proof.
  rewrite np_sum_scale. unfold np_sum.
  revert q. induction p as [|a p IH]; intros [|b q] Hl; simpl in *; try lia; [lra|].
  specialize (IH q ltac:(lia)). lra.
Qed.

Lemma midpoint_dominates (p q : list R) :
  length p = length q ->
  Forall (fun x => 0 <= x) p -> Forall (fun x => 0 <= x) q ->
  Forall2 (fun a b => 0 <= a /\ a <= 2 * b) p (np_scale (1 / 2) (map2 Rplus p q)) /\
  Forall2 (fun a b => 0 <= a /\ a <= 2 * b) q (np_scale (1 / 2) (map2 Rplus p q)).
Proof.
  intros Hl Hp. revert q Hl.
  induction Hp as [|a p Ha _ IH]; intros [|b q] Hl Hq; simpl in *; try lia.
  - split; constructor.
  - inversion Hq as [|? ? Hb Hq']; subst.
    destruct (IH q ltac:(lia) Hq') as [H1 H2].
    split; (constructor; [lra|assumption]).
Qed.

(** C5, amended.  In exact real arithmetic, on non-negative arrays of equal
    length and positive 1-norm [JSD] returns a number between [0] and
    [ln 2].  In binary64 the result can leave that interval. *)
Theorem JSD_bounded (P Q : list R) :
  length P = length Q ->
  Forall (fun x => 0 <= x) P -> Forall (fun x => 0 <= x) Q ->
  0 < norm1 P -> 0 < norm1 Q ->
  exists r : R, JSD P Q = Ok r /\ 0 <= r <= ln 2.
Proof.
  intros Hlen HP0 HQ0 HP HQ.
  rewrite (JSD_normalised P Q HP HQ). cbv zeta.
  set (p := map (fun x => x / norm1 P) P).
  set (q := map (fun x => x / norm1 Q) Q).
  assert (Hpq : length p = length q) by (unfold p, q; rewrite !length_map; exact Hlen).
  assert (Hp0 : Forall (fun x => 0 <= x) p) by (now apply normalised_nonneg).
  assert (Hq0 : Forall (fun x => 0 <= x) q) by (now apply normalised_nonneg).
  assert (Sp : np_sum p = 1).
  { unfold p. rewrite np_sum_div, <- (norm1_nonneg P HP0). field. lra. }
  assert (Sq : np_sum q = 1).
  { unfold q. rewrite np_sum_div, <- (norm1_nonneg Q HQ0). field. lra. }
  rewrite (np_add_same_shape p q Hpq). cbn [bind].
  set (m := np_scale (1 / 2) (map2 Rplus p q)).
  assert (Sm : np_sum m = 1).
  { unfold m. rewrite (midpoint_sum p q Hpq), Sp, Sq. lra. }
  destruct (midpoint_dominates p q Hpq Hp0 Hq0) as [Dp Dq]. fold m in Dp, Dq.
  destruct (entropy_bounds p m Sp Sm Dp) as [a [Ea Ha]].
  destruct (entropy_bounds q m Sq Sm Dq) as [b [Eb Hb]].
  exists (1 / 2 * (a + b)). rewrite Ea, Eb. cbn [bind].
  split; [reflexivity|]. lra.
Qed.

(** ** Calibration circuits *)





(** ** Correction methods *)

(** C6. [correct_counts] has exactly three selectable methods, named
    "minimise", "invert" and "bayesian", and without a [method] argument it
    uses "minimise". *)
Theorem correct_counts_methods :
  (forall s : string,
     (exists m, Spam.select_method (Some s) = Some m) <->
     s = "minimise"%string \/ s = "invert"%string \/ s = "bayesian"%string) /\
  (forall s : string, forall m : Spam.method,
     Spam.select_method (Some s) = Some m -> Spam.method_name m = s) /\
  map Spam.method_name Spam.methods =
    ["minimise"%string; "invert"%string; "bayesian"%string] /\
  (forall m : Spam.method, In m Spam.methods) /\
  Spam.select_method None = Some Spam.minimise.
Proof.
  assert (Hname : forall (s : string) (m : Spam.method),
             Spam.select_method (Some s) = Some m -> Spam.method_name m = s).
  { intros s m H. unfold Spam.select_method in H.
    apply find_some in H. destruct H as [_ H]. now apply String.eqb_eq in H. }
  split; [|split; [exact Hname|split; [reflexivity|split; [|reflexivity]]]].
  - intros s. split.
    + intros [m H]. apply Hname in H. subst s. destruct m; simpl; auto.
    + intros [->|[->| ->]]; eexists; reflexivity.
  - intros []; simpl; auto.
Qed.

(** The two ways the notebook calls [correct_counts], without a method and
    with [method = 'bayesian'], both select a method. *)
Lemma notebook_methods_selectable (arg : option string) :
  In (Notebook.correct_counts arg) Notebook.workflow ->
  exists m, Spam.select_method arg = Some m.
Proof.
  intros H. vm_compute in H.
  repeat (destruct H as [H|H]; [try discriminate H|]); try contradiction;
    injection H as <-; eexists; reflexivity.
Qed.

(** ** Calibration comes before correction *)

Lemma corrections_ready_sound (l : list Notebook.call) :
  forall (ready : bool) (pre post : list Notebook.call) (m : option string),
    Notebook.corrections_ready ready l = true ->
    l = pre ++ Notebook.correct_counts m :: post ->
    fold_left Notebook.step pre ready = true.
Proof.
  intros ready pre. revert l ready.
  induction pre as [|c pre IH]; intros l ready post m Hc ->.
  - simpl in Hc. apply andb_prop in Hc. destruct Hc as [Hc _]. exact Hc.
  - simpl in Hc. apply andb_prop in Hc. destruct Hc as [_ Hc].
    simpl. exact (IH _ _ post m Hc eq_refl).
Qed.

Lemma ready_by_calculate_matrices (pre : list Notebook.call) (ready : bool) :
  fold_left Notebook.step pre ready = true ->
  ready = true \/ In Notebook.calculate_matrices pre.
Proof.
  revert ready. induction pre as [|c pre IH]; intros ready H; simpl in H.
  - now left.
  - destruct (IH _ H) as [Hs|Hin]; [|right; now right].
    destruct c; simpl in Hs; try (now left); try discriminate.
    right. now left.
Qed.

(** C7. In the notebook every [correct_counts] comes after a
    [calculate_matrices]: at each correction the matrices of the
    [SpamCorrecter] object have been computed. *)
Theorem matrices_before_correction
  (pre post : list Notebook.call) (m : option string) :
  Notebook.workflow = pre ++ Notebook.correct_counts m :: post ->
  Notebook.run pre = true /\ In Notebook.calculate_matrices pre.
Proof.
  intros H.
  assert (Hr : Notebook.run pre = true).
  { apply (corrections_ready_sound Notebook.workflow false pre post m);
      [vm_compute; reflexivity|exact H]. }
  split; [exact Hr|].
  destruct (ready_by_calculate_matrices pre false Hr) as [E|Hin];
    [discriminate|exact Hin].
Qed.

(** ** The statements at sample inputs *)

Lemma sample_P_norm : 0 < norm1 sample_P.
Proof. unfold norm1, sample_P. simpl. rewrite Rabs_R1, Rabs_R0. lra. Qed.

Lemma sample_Q_norm : 0 < norm1 sample_Q.
Proof. unfold norm1, sample_Q. simpl. rewrite Rabs_R1, Rabs_R0. lra. Qed.

Lemma sample_P_nonneg : Forall (fun x => 0 <= x) sample_P.
Proof. repeat constructor; lra. Qed.

Lemma sample_Q_nonneg : Forall (fun x => 0 <= x) sample_Q.
Proof. repeat constructor; lra. Qed.

Lemma sample_counts_keys : NoDup (map fst sample_counts).
Proof.
  simpl. constructor; [|constructor; [intros []|constructor]].
  intros [H|[]]. discriminate H.
Qed.

Lemma sample_counts_bits :
  Forall (fun xc => length (fst xc) = 2%nat /\ Forall is_bit (fst xc)) sample_counts.
Proof.
  unfold sample_counts, is_bit.
  repeat (apply Forall_cons;
          [split; [reflexivity|repeat (apply Forall_cons; [auto|]); apply Forall_nil]|]).
  apply Forall_nil.
Qed.

Lemma sample_counts_total : 0 < total sample_counts.
Proof. unfold total, sample_counts. simpl. lra. Qed.

Lemma JSD_symmetric_witness :
  length sample_P = length sample_Q /\
  0 < norm1 sample_P /\ 0 < norm1 sample_Q /\
  JSD sample_P sample_Q = JSD sample_Q sample_P.
Proof.
  refine (conj eq_refl (conj sample_P_norm (conj sample_Q_norm _))).
  exact (JSD_symmetric sample_P sample_Q eq_refl sample_P_norm sample_Q_norm).
Defined.

Lemma JSD_bounded_witness :
  length sample_P = length sample_Q /\
  Forall (fun x => 0 <= x) sample_P /\ Forall (fun x => 0 <= x) sample_Q /\
  0 < norm1 sample_P /\ 0 < norm1 sample_Q /\
  exists r : R, JSD sample_P sample_Q = Ok r /\ 0 <= r <= ln 2.
Proof.
  refine (conj eq_refl (conj sample_P_nonneg (conj sample_Q_nonneg
            (conj sample_P_norm (conj sample_Q_norm _))))).
  exact (JSD_bounded sample_P sample_Q eq_refl sample_P_nonneg sample_Q_nonneg
           sample_P_norm sample_Q_norm).
Defined.

Lemma JSD_scale_invariant_witness :
  0 < norm1 sample_P /\ 0 < norm1 sample_Q /\ 0 < 2 /\ 0 < 3 /\
  JSD (np_scale 2 sample_P) (np_scale 3 sample_Q) = JSD sample_P sample_Q.
Proof.
  refine (conj sample_P_norm (conj sample_Q_norm (conj Rlt_0_2 (conj _ _)))).
  - lra.
  - apply (JSD_scale_invariant sample_P sample_Q 2 3 sample_P_norm sample_Q_norm);
      lra.
Defined.

Lemma probs_from_counts_first_key_witness :
  sample_counts <> [] /\
  forall e : exn, probs_from_counts sample_counts <> Raise e.
Proof.
  assert (Hne : sample_counts <> []) by discriminate.
  exact (conj Hne (proj2 probs_from_counts_first_key sample_counts Hne)).
Defined.

Lemma matrices_before_correction_witness :
  Notebook.workflow =
    Notebook.before_first_correction ++
    Notebook.correct_counts None :: Notebook.after_first_correction /\
  Notebook.run Notebook.before_first_correction = true /\
  In Notebook.calculate_matrices Notebook.before_first_correction.
Proof.
  assert (H : Notebook.workflow =
              Notebook.before_first_correction ++
              Notebook.correct_counts None :: Notebook.after_first_correction)
    by reflexivity.
  exact (conj H (matrices_before_correction _ _ _ H)).
Defined.

(** ** Evaluations at sample inputs *)

Lemma rel_entr_pos (x y : R) : 0 < x -> 0 < y -> rel_entr x y = Some (x * ln (x / y)).
Proof.
  intros Hx Hy. unfold rel_entr.
  destruct (Rlt_dec 0 x); [|contradiction]. destruct (Rlt_dec 0 y); [reflexivity|contradiction].
Qed.

Lemma rel_entr_zero (y : R) : 0 <= y -> rel_entr 0 y = Some 0.
Proof.
  intros Hy. unfold rel_entr.
  destruct (Rlt_dec 0 0); [lra|]. destruct (Req_dec_T 0 0); [|contradiction].
  destruct (Rle_dec 0 y); [reflexivity|contradiction].
Qed.

Lemma entropy_normalised (p m : list R) :
  np_sum p = 1 -> np_sum m = 1 -> length m = length p ->
  entropy p m = (vec <- all_finite (map2 rel_entr p m) ;; Ok (np_sum vec)).
Proof.
  intros Hp Hm Hl. unfold entropy.
  rewrite Hp, Hm, !np_div_ok by lra. rewrite !map_div_one. cbn [bind].
  rewrite Hl, Nat.eqb_refl. reflexivity.
Qed.

(** Two distributions with disjoint supports are at the upper bound. *)
Example JSD_sample : JSD sample_P sample_Q = Ok (ln 2).
Proof.
  rewrite (JSD_normalised _ _ sample_P_norm sample_Q_norm). cbv zeta.
  replace (norm1 sample_P) with 1 by (unfold norm1, sample_P; simpl; rewrite Rabs_R1, Rabs_R0; lra).
  replace (norm1 sample_Q) with 1 by (unfold norm1, sample_Q; simpl; rewrite Rabs_R1, Rabs_R0; lra).
  rewrite !map_div_one. unfold sample_P, sample_Q.
  rewrite np_add_same_shape by reflexivity. cbn [bind map2 np_scale map].
  replace (1 / 2 * (1 + 0)) with (1 / 2) by lra.
  replace (1 / 2 * (0 + 1)) with (1 / 2) by lra.
  rewrite !entropy_normalised by (unfold np_sum; simpl; try lra; reflexivity).
  cbn [map2 all_finite].
  rewrite !rel_entr_pos, !rel_entr_zero by lra.
  cbn [bind all_finite np_sum fold_right].
  replace (1 / (1 / 2)) with 2 by lra.
  f_equal. lra.
Qed.

Example binseq_2 : binseq 2 = ["00"; "01"; "10"; "11"]%string.
Proof. reflexivity. Qed.

Example probs_from_counts_sample :
  probs_from_counts sample_counts = Ok [3 / 4; 0 / 4; 0 / 4; 1 / 4].
Proof.
  unfold probs_from_counts, sample_counts. cbn -[np_div].
  replace (3 + (0 + (0 + (1 + 0)))) with 4 by lra.
  rewrite np_div_ok by lra. reflexivity.
Qed.

Example calibration_circuits_one_qubit :
  Spam.calibration_circuits {| Spam.correlations := [[7%nat]] |} =
  Some [[Spam.Measure 7%nat]; [Spam.X 7%nat; Spam.Measure 7%nat]].
Proof. reflexivity. Qed.

Example calibration_circuits_two_subsets :
  Spam.calibration_circuits {| Spam.correlations := [[0; 1]; [2]]%nat |} =
  Some [[Spam.Measure 0; Spam.Measure 1; Spam.Measure 2];
        [Spam.X 1; Spam.Measure 0; Spam.Measure 1; Spam.Measure 2];
        [Spam.X 0; Spam.Measure 0; Spam.Measure 1; Spam.X 2; Spam.Measure 2];
        [Spam.X 0; Spam.X 1; Spam.Measure 0; Spam.Measure 1;
         Spam.X 2; Spam.Measure 2]]%nat.
Proof. reflexivity. Qed.

Example calibration_circuits_no_subset :
  Spam.calibration_circuits {| Spam.correlations := [] |} = None.
Proof. reflexivity. Qed.

(** * Further properties of the notebook's functions *)

(** ** Keys and binary strings *)

Lemma key_of_length (x : list Z) :
  Forall is_bit x -> String.length (key_of x) = length x.
Proof.
  induction 1 as [|e x He _ IH]; [reflexivity|].
  rewrite key_of_cons by exact He. simpl. now rewrite IH.
Qed.

Lemma key_of_binary (x : list Z) : Forall is_bit x -> is_binary (key_of x) = true.
Proof.
  induction 1 as [|e x He _ IH]; [reflexivity|].
  rewrite key_of_cons by exact He. unfold is_binary in *. simpl.
  rewrite IH. destruct He as [->| ->]; reflexivity.
Qed.

Lemma readout_of_key (x : list Z) : Forall is_bit x -> readout_of (key_of x) = x.
Proof.
  induction 1 as [|e x He _ IH]; [reflexivity|].
  rewrite key_of_cons by exact He. unfold readout_of in *. simpl.
  rewrite IH. destruct He as [->| ->]; reflexivity.
Qed.

Lemma readout_of_bits (s : string) : Forall is_bit (readout_of s).
Proof.
  unfold readout_of. induction s as [|c s IH]; simpl; constructor; [|exact IH].
  unfold is_bit. destruct (Ascii.eqb c "0"); auto.
Qed.

Lemma readout_of_length (s : string) : length (readout_of s) = String.length s.
Proof.
  unfold readout_of. induction s as [|c s IH]; simpl; [reflexivity|].
  now rewrite IH.
Qed.

Lemma key_of_readout (s : string) : is_binary s = true -> key_of (readout_of s) = s.
Proof.
  unfold is_binary. induction s as [|c s IH]; intros H; [reflexivity|].
  simpl in H. apply andb_prop in H. destruct H as [Hc Hs].
  change (readout_of (String c s))
    with ((if Ascii.eqb c "0" then 0%Z else 1%Z) :: readout_of s).
  rewrite key_of_cons.
  - rewrite (IH Hs). f_equal.
    destruct (Ascii.eqb_spec c "0") as [->|N0]; [reflexivity|].
    simpl in Hc. apply Ascii.eqb_eq in Hc. subst c. reflexivity.
  - unfold is_bit. destruct (Ascii.eqb c "0"); auto.
Qed.

(** X1. The strings [binseq k] lists are exactly the strings of length [k]
    over the characters ['0'] and ['1']. *)
Theorem binseq_members (k : nat) (s : string) :
  In s (binseq k) <-> String.length s = k /\ is_binary s = true.
Proof.
  rewrite binseq_tuples, in_map_iff. split.
  - intros [x [<- Hx]]. apply product_bits_in in Hx. destruct Hx as [Hl Hb].
    split; [now rewrite key_of_length|now apply key_of_binary].
  - intros [Hl Hb]. exists (readout_of s). split; [now apply key_of_readout|].
    apply product_bits_in. split; [now rewrite readout_of_length|apply readout_of_bits].
Qed.

(** X2. [binseq k] has [2^k] elements and lists them in strictly increasing
    lexicographic order, so no string occurs twice. *)
Theorem binseq_sorted (k : nat) :
  length (binseq k) = (2 ^ k)%nat /\
  (forall i j : nat, (i < j < 2 ^ k)%nat ->
     String.compare (nth i (binseq k) ""%string) (nth j (binseq k) ""%string) = Lt) /\
  NoDup (binseq k).
Proof.
  assert (Hs : forall i j : nat, (i < j < 2 ^ k)%nat ->
             String.compare (nth i (binseq k) ""%string)
                            (nth j (binseq k) ""%string) = Lt).
  { intros i j Hij. rewrite !binseq_nth by lia. now apply bin_string_lex. }
  split; [apply binseq_length|split; [exact Hs|]].
  apply (proj2 (NoDup_nth (binseq k) ""%string)).
  rewrite binseq_length. intros i j Hi Hj E.
  destruct (Nat.lt_trichotomy i j) as [L|[->|L]]; [|reflexivity|].
  - specialize (Hs i j ltac:(lia)). rewrite E, string_compare_refl in Hs. discriminate.
  - specialize (Hs j i ltac:(lia)). rewrite E, string_compare_refl in Hs. discriminate.
Qed.

(** X3. On bit-tuples the key [''.join(str(e) for e in x)] loses nothing:
    it has one character per bit, [readout_of] recovers the tuple from it,
    and two bit-tuples have the same key only if they are the same tuple. *)
Theorem key_of_faithful (x y : list Z) :
  Forall is_bit x -> Forall is_bit y ->
  String.length (key_of x) = length x /\
  readout_of (key_of x) = x /\
  (key_of x = key_of y <-> x = y).
Proof.
  intros Hx Hy.
  split; [now apply key_of_length|split; [now apply readout_of_key|]].
  split; [|now intros ->].
  intros E. rewrite <- (readout_of_key x Hx), <- (readout_of_key y Hy), E.
  reflexivity.
Qed.

(** Outside the bit-tuples the key can merge two readouts. *)
Example key_of_collision : key_of [10%Z] = key_of [1%Z; 0%Z].
Proof. reflexivity. Qed.

(** ** [probs_from_counts] beyond well-formed counts *)

(** The counts behind [converted], for keys that are bit-tuples of any
    lengths. *)
Lemma converted_bits (counts : Counts) (n : nat) :
  NoDup (map fst counts) ->
  Forall (fun xc => Forall is_bit (fst xc)) counts ->
  map (fun b =>
         dict_get b
           (fold_left (fun d xc => dict_set (key_of (fst xc)) (snd xc) d) counts []) 0)
      (binseq n) =
  map (fun x => counts_get x counts) (product_repeat [0%Z; 1%Z] n).
Proof.
  intros Hnd Hbits.
  rewrite binseq_tuples, map_map.
  apply map_ext_in. intros x Hx.
  apply product_bits_in in Hx. destruct Hx as [_ Hx].
  rewrite counts_dict_get by assumption.
  destruct (in_dec (list_eq_dec Z.eq_dec) x (map fst counts)) as [_|Hn];
    [reflexivity|].
  simpl. symmetry. now apply counts_get_absent.
Qed.

Lemma probs_from_counts_tuples (counts : Counts) :
  counts <> [] ->
  NoDup (map fst counts) ->
  Forall (fun xc => Forall is_bit (fst xc)) counts ->
  probs_from_counts counts =
  np_div (map (fun x => counts_get x counts)
              (product_repeat [0%Z; 1%Z] (first_key_length counts)))
         (np_sum (map (fun x => counts_get x counts)
                      (product_repeat [0%Z; 1%Z] (first_key_length counts)))).
Proof.
  intros Hne Hnd Hbits.
  destruct counts as [|[x0 c0] cs] eqn:E; [contradiction|].
  rewrite <- E in *.
  rewrite (probs_from_counts_first counts cs x0 c0 E). cbv zeta.
  replace (first_key_length counts) with (length x0) by (rewrite E; reflexivity).
  rewrite (converted_bits counts (length x0) Hnd Hbits). reflexivity.
Qed.


(** X4. In exact arithmetic and for counts small enough for [int64]:
    whatever the keys are, a vector that [probs_from_counts] returns sums
    to one and has [2^len] entries, [len] being the length of the first
    key. *)
Theorem probs_from_counts_normalised (counts : Counts) (v : list R) :
  int64_safe counts ->
  probs_from_counts counts = Ok v ->
  np_sum v = 1 /\ length v = (2 ^ first_key_length counts)%nat /\ counts <> [].
Proof.
  intros _ H. destruct counts as [|[x0 c0] cs]; [discriminate H|].
  unfold probs_from_counts in H. cbn [first_key_length].
  set (converted := map _ (binseq (length x0))) in H.
  assert (Hl : length converted = (2 ^ length x0)%nat).
  { unfold converted. now rewrite length_map, binseq_length. }
  unfold np_div in H. destruct (Req_dec_T (np_sum converted) 0) as [E|N].
  - destruct converted; [|discriminate H].
    simpl in Hl. pose proof (Nat.pow_nonzero 2 (length x0) ltac:(lia)). lia.
  - injection H as <-. split; [|split; [|discriminate]].
    + rewrite np_sum_div. now field.
    + now rewrite length_map.
Qed.


Lemma counts_get_filter (p : list Z -> bool) (counts : Counts) (x : list Z) :
  p x = true ->
  counts_get x (filter (fun xc => p (fst xc)) counts) = counts_get x counts.
Proof.
  intros Hp. induction counts as [|[x' c] counts IH]; [reflexivity|].
  cbn [filter fst counts_get].
  destruct (p x') eqn:Hp'; cbn [counts_get].
  - now rewrite IH.
  - destruct (list_eq_dec Z.eq_dec x x') as [->|_]; [congruence|exact IH].
Qed.

Lemma NoDup_map_filter {A B : Type} (f : A -> B) (q : A -> bool) (l : list A) :
  NoDup (map f l) -> NoDup (map f (filter q l)).
Proof.
  induction l as [|a l IH]; intros H; [constructor|].
  inversion H as [|? ? Ha Hl]; subst. simpl.
  destruct (q a); [|now apply IH].
  simpl. constructor; [|now apply IH].
  intros Hin. apply Ha. apply in_map_iff in Hin. destruct Hin as [b [E Hb]].
  apply filter_In in Hb. apply in_map_iff. exists b. tauto.
Qed.

(** X6. Readouts whose length differs from that of the first key are
    ignored: dropping them from the counts changes nothing. *)
Theorem probs_from_counts_first_length (counts : Counts) :
  NoDup (map fst counts) ->
  Forall (fun xc => Forall is_bit (fst xc)) counts ->
  probs_from_counts counts = probs_from_counts (keep_first_length counts).
Proof.
  intros Hnd Hbits.
  destruct counts as [|[x0 c0] cs] eqn:E; [reflexivity|].
  rewrite <- E in *.
  set (p := fun x : list Z => Nat.eqb (length x) (length x0)).
  assert (Hk : keep_first_length counts =
               (x0, c0) :: filter (fun xc => p (fst xc)) cs).
  { unfold keep_first_length. rewrite E. cbn [first_key_length filter fst].
    rewrite Nat.eqb_refl. reflexivity. }
  assert (Hf : keep_first_length counts = filter (fun xc => p (fst xc)) counts).
  { rewrite Hk, E. cbn [filter fst]. unfold p at 2. now rewrite Nat.eqb_refl. }
  assert (Hne : counts <> []) by (rewrite E; discriminate).
  rewrite (probs_from_counts_tuples counts Hne Hnd Hbits).
  rewrite (probs_from_counts_tuples (keep_first_length counts)).
  - assert (Hn : first_key_length (keep_first_length counts) = first_key_length counts).
    { rewrite Hk, E. reflexivity. }
    rewrite Hn.
    assert (Hc : map (fun x => counts_get x (keep_first_length counts))
                     (product_repeat [0%Z; 1%Z] (first_key_length counts)) =
                 map (fun x => counts_get x counts)
                     (product_repeat [0%Z; 1%Z] (first_key_length counts))).
    { apply map_ext_in. intros x Hx. apply product_bits_in in Hx.
      destruct Hx as [Hl _]. rewrite Hf. apply counts_get_filter.
      unfold p. rewrite Hl, E. cbn [first_key_length]. apply Nat.eqb_refl. }
    rewrite Hc. reflexivity.
  - rewrite Hk. discriminate.
  - rewrite Hf. now apply NoDup_map_filter.
  - rewrite Hf. apply Forall_forall. intros a Ha. apply filter_In in Ha.
    rewrite Forall_forall in Hbits. apply Hbits. tauto.
Qed.

Lemma counts_get_in (counts : Counts) (x : list Z) (c : R) :
  NoDup (map fst counts) -> In (x, c) counts -> counts_get x counts = c.
Proof.
  induction counts as [|[x' c'] counts IH]; intros Hnd Hin; [destruct Hin|].
  inversion Hnd as [|? ? Hx Hnd']; subst. cbn [counts_get].
  destruct Hin as [E|Hin].
  - injection E as -> ->.
    destruct (list_eq_dec Z.eq_dec x x); [reflexivity|contradiction].
  - destruct (list_eq_dec Z.eq_dec x x') as [->|_]; [|now apply IH].
    exfalso. apply Hx. apply in_map_iff. exists (x', c). now split.
Qed.

Lemma counts_get_perm (counts counts' : Counts) (x : list Z) :
  NoDup (map fst counts) -> Permutation counts counts' ->
  counts_get x counts' = counts_get x counts.
Proof.
  intros Hnd Hp.
  assert (Hnd' : NoDup (map fst counts')).
  { eapply Permutation_NoDup; [|exact Hnd]. now apply Permutation_map. }
  destruct (in_dec (list_eq_dec Z.eq_dec) x (map fst counts)) as [Hin|Hn].
  - apply in_map_iff in Hin. destruct Hin as [[y c] [E Hin]]. simpl in E. subst y.
    rewrite (counts_get_in counts x c Hnd Hin).
    apply counts_get_in; [exact Hnd'|]. eapply Permutation_in; eassumption.
  - rewrite (counts_get_absent x counts Hn).
    apply counts_get_absent. intros Hin. apply Hn.
    eapply Permutation_in; [|exact Hin].
    apply Permutation_map. now apply Permutation_sym.
Qed.

(** X7. When all keys are bit-tuples of one length, the result does not
    depend on the insertion order of the counts dict. *)
Theorem probs_from_counts_order (counts counts' : Counts) (n : nat) :
  NoDup (map fst counts) ->
  Forall (fun xc => length (fst xc) = n /\ Forall is_bit (fst xc)) counts ->
  Permutation counts counts' ->
  probs_from_counts counts' = probs_from_counts counts.
Proof.
  intros Hnd Hkeys Hp.
  destruct counts as [|[x0 c0] cs] eqn:E.
  { apply Permutation_nil in Hp. now subst. }
  rewrite <- E in *.
  assert (Hne : counts <> []) by (rewrite E; discriminate).
  assert (Hne' : counts' <> []).
  { intros ->. apply Permutation_sym, Permutation_nil in Hp. contradiction. }
  assert (Hkeys' : Forall (fun xc => length (fst xc) = n /\ Forall is_bit (fst xc)) counts').
  { eapply Permutation_Forall; eassumption. }
  assert (Hnd' : NoDup (map fst counts')).
  { eapply Permutation_NoDup; [|exact Hnd]. now apply Permutation_map. }
  assert (Hbits : forall l : Counts,
             Forall (fun xc => length (fst xc) = n /\ Forall is_bit (fst xc)) l ->
             Forall (fun xc => Forall is_bit (fst xc)) l).
  { intros l Hl. eapply Forall_impl; [|exact Hl]. intros a [_ Ha]. exact Ha. }
  assert (Hlen : forall l : Counts, l <> [] ->
             Forall (fun xc => length (fst xc) = n /\ Forall is_bit (fst xc)) l ->
             first_key_length l = n).
  { intros [|[y d] l] Hl Hf; [contradiction|].
    inversion Hf as [|? ? [Hy _] _]. exact Hy. }
  rewrite (probs_from_counts_tuples counts Hne Hnd (Hbits _ Hkeys)).
  rewrite (probs_from_counts_tuples counts' Hne' Hnd' (Hbits _ Hkeys')).
  rewrite (Hlen counts Hne Hkeys), (Hlen counts' Hne' Hkeys').
  assert (Hc : map (fun x => counts_get x counts') (product_repeat [0%Z; 1%Z] n) =
               map (fun x => counts_get x counts) (product_repeat [0%Z; 1%Z] n)).
  { apply map_ext. intros x. now apply counts_get_perm. }
  rewrite Hc. reflexivity.
Qed.

Lemma dict_set_scale (k : R) (key : string) (v : R) (d : dict) :
  dict_set key (k * v) (map (fun kv => (fst kv, k * snd kv)) d) =
  map (fun kv => (fst kv, k * snd kv)) (dict_set key v d).
Proof.
  induction d as [|[k0 v0] d IH]; [reflexivity|].
  cbn [map dict_set fst snd].
  destruct (String.eqb key k0); cbn [map fst snd]; [reflexivity|].
  now rewrite IH.
Qed.

Lemma dict_get_scale (k : R) (key : string) (d : dict) :
  dict_get key (map (fun kv => (fst kv, k * snd kv)) d) 0 = k * dict_get key d 0.
Proof.
  induction d as [|[k0 v0] d IH]; cbn [map dict_get fst snd]; [lra|].
  destruct (String.eqb key k0); [reflexivity|exact IH].
Qed.

Lemma counts_dict_scale (k : R) (counts : Counts) (d : dict) :
  fold_left (fun d xc => dict_set (key_of (fst xc)) (snd xc) d)
            (scale_counts k counts) (map (fun kv => (fst kv, k * snd kv)) d) =
  map (fun kv => (fst kv, k * snd kv))
      (fold_left (fun d xc => dict_set (key_of (fst xc)) (snd xc) d) counts d).
Proof.
  revert d. induction counts as [|[x c] counts IH]; intros d; [reflexivity|].
  cbn [scale_counts map fold_left fst snd].
  rewrite dict_set_scale. apply IH.
Qed.

(** X8. In exact arithmetic and for counts that are small enough for
    [int64] before and after: multiplying every count by the same non-zero
    number does not change the result, whatever the keys are. *)
Theorem probs_from_counts_scale (k : R) (counts : Counts) :
  k <> 0 ->
  int64_safe counts -> int64_safe (scale_counts k counts) ->
  probs_from_counts (scale_counts k counts) = probs_from_counts counts.
Proof.
  intros Hk _ _. destruct counts as [|[x0 c0] cs] eqn:E; [reflexivity|].
  rewrite <- E.
  assert (Es : scale_counts k counts = (x0, k * c0) :: scale_counts k cs)
    by (rewrite E; reflexivity).
  rewrite (probs_from_counts_first _ _ _ _ Es),
          (probs_from_counts_first _ _ _ _ E). cbv zeta.
  pose proof (counts_dict_scale k counts []) as Hd. cbn [map] in Hd. rewrite Hd.
  set (D := fold_left (fun d xc => dict_set (key_of (fst xc)) (snd xc) d) counts []).
  assert (Hc : map (fun b => dict_get b (map (fun kv => (fst kv, k * snd kv)) D) 0)
                   (binseq (length x0)) =
               np_scale k (map (fun b => dict_get b D 0) (binseq (length x0)))).
  { unfold np_scale. rewrite map_map. apply map_ext. intros b. apply dict_get_scale. }
  rewrite Hc, np_sum_scale.
  set (converted := map (fun b => dict_get b D 0) (binseq (length x0))).
  unfold np_div.
  destruct (Req_dec_T (np_sum converted) 0) as [Z|NZ].
  - rewrite Z, Rmult_0_r. destruct (Req_dec_T 0 0) as [_|N]; [|contradiction].
    destruct converted; reflexivity.
  - destruct (Req_dec_T (k * np_sum converted) 0) as [Z|_]; [nra|].
    f_equal. unfold np_scale. rewrite map_map. apply map_ext. intros a. now field.
Qed.

(** The vector [probs_from_counts] returns on well-formed counts. *)
Lemma probs_from_counts_value (counts : Counts) (n : nat) :
  counts <> [] ->
  NoDup (map fst counts) ->
  Forall (fun xc => length (fst xc) = n /\ Forall is_bit (fst xc)) counts ->
  total counts <> 0 ->
  probs_from_counts counts =
  Ok (map (fun x => counts_get x counts / total counts) (product_repeat [0%Z; 1%Z] n)).
Proof.
  intros Hne Hnd Hkeys Htot.
  assert (Hbits : Forall (fun xc => Forall is_bit (fst xc)) counts).
  { eapply Forall_impl; [|exact Hkeys]. intros a [_ Ha]. exact Ha. }
  rewrite (probs_from_counts_tuples counts Hne Hnd Hbits).
  assert (Hn : first_key_length counts = n).
  { destruct counts as [|[x0 c0] cs]; [contradiction|].
    inversion Hkeys as [|? ? [Hl _] _]. exact Hl. }
  rewrite Hn, np_sum_counts.
  - rewrite np_div_ok by exact Htot. now rewrite map_map.
  - apply product_bits_NoDup.
  - exact Hnd.
  - intros x Hx. apply in_map_iff in Hx. destruct Hx as [[y c] [<- Hin]].
    rewrite Forall_forall in Hkeys. apply product_bits_in. exact (Hkeys _ Hin).
Qed.

Lemma counts_get_bounds (counts : Counts) (x : list Z) :
  Forall (fun xc => 0 <= snd xc) counts ->
  0 <= counts_get x counts <= total counts /\ 0 <= total counts.
Proof.
  unfold total, np_sum.
  induction 1 as [|[x' c] counts Hc _ IH]; cbn [counts_get map fold_right snd] in *.
  - lra.
  - destruct (list_eq_dec Z.eq_dec x x'); lra.
Qed.

(** X9. On well-formed counts that are non-negative, not all zero and
    small enough for [int64] the result is a probability vector: every
    entry lies between [0] and [1]. *)
Theorem probs_from_counts_probabilities (counts : Counts) (n : nat) :
  counts <> [] ->
  NoDup (map fst counts) ->
  Forall (fun xc => length (fst xc) = n /\ Forall is_bit (fst xc)) counts ->
  Forall (fun xc => 0 <= snd xc) counts ->
  0 < total counts ->
  int64_safe counts ->
  exists v : list R,
    probs_from_counts counts = Ok v /\ Forall (fun p => 0 <= p <= 1) v.
Proof.
  intros Hne Hnd Hkeys Hpos Htot _.
  eexists. split.
  - apply (probs_from_counts_value counts n Hne Hnd Hkeys). lra.
  - apply Forall_forall. intros p Hp. apply in_map_iff in Hp.
    destruct Hp as [x [<- _]].
    destruct (counts_get_bounds counts x Hpos) as [[H0 H1] _].
    split.
    + apply Rmult_le_pos; [exact H0|]. left. now apply Rinv_0_lt_compat.
    + apply (Rmult_le_reg_r (total counts)); [exact Htot|].
      replace (counts_get x counts / total counts * total counts)
        with (counts_get x counts) by (field; lra).
      lra.
Qed.

Lemma bits_value_snoc (y : list Z) (e : Z) :
  bits_value (y ++ [e]) = (2 * bits_value y + Z.to_nat e)%nat.
Proof. unfold bits_value. rewrite fold_left_app. reflexivity. Qed.

Lemma bits_value_lt (x : list Z) :
  Forall is_bit x -> (bits_value x < 2 ^ length x)%nat.
Proof.
  induction x as [|e y IH] using rev_ind; intros H.
  - cbv. lia.
  - apply Forall_app in H. destruct H as [Hy He].
    inversion He as [|? ? Hb _]; subst.
    rewrite bits_value_snoc, length_app, Nat.add_1_r, Nat.pow_succ_r'.
    specialize (IH Hy).
    assert (Hr : (Z.to_nat e < 2)%nat) by (destruct Hb as [->| ->]; simpl; lia).
    cbn [length]. lia.
Qed.

Lemma bin_digits_value (x : list Z) :
  Forall is_bit x -> bin_digits (length x) (bits_value x) = x.
Proof.
  induction x as [|e y IH] using rev_ind; intros H; [reflexivity|].
  apply Forall_app in H. destruct H as [Hy He].
  inversion He as [|? ? Hb _]; subst.
  rewrite bits_value_snoc, length_app, Nat.add_1_r. cbn [bin_digits].
  assert (Hr : (Z.to_nat e < 2)%nat) by (destruct Hb as [->| ->]; simpl; lia).
  assert (Hd : ((2 * bits_value y + Z.to_nat e) / 2 = bits_value y)%nat).
  { symmetry. apply (Nat.div_unique _ 2 _ (Z.to_nat e)); [exact Hr|reflexivity]. }
  assert (Hm : ((2 * bits_value y + Z.to_nat e) mod 2 = Z.to_nat e)%nat).
  { symmetry. apply (Nat.mod_unique _ 2 (bits_value y)); [exact Hr|reflexivity]. }
  rewrite Hd, Hm, (IH Hy). f_equal. f_equal.
  destruct Hb as [->| ->]; reflexivity.
Qed.

(** ** [JSD] on distributions *)

(** On arrays that already are distributions the normalisation of [JSD]
    changes nothing. *)
Lemma JSD_on_distributions (p q : list R) :
  Forall (fun x => 0 <= x) p -> Forall (fun x => 0 <= x) q ->
  np_sum p = 1 -> np_sum q = 1 ->
  JSD p q =
  (s <- np_add p q ;;
   let _M := np_scale (1 / 2) s in
   e1 <- entropy p _M ;;
   e2 <- entropy q _M ;;
   Ok (1 / 2 * (e1 + e2))).
Proof.
  intros Hp Hq Sp Sq.
  assert (Np : norm1 p = 1) by (now rewrite norm1_nonneg).
  assert (Nq : norm1 q = 1) by (now rewrite norm1_nonneg).
  rewrite JSD_normalised by lra. cbv zeta.
  rewrite Np, Nq, !map_div_one. reflexivity.
Qed.

Lemma normalised_sum (P : list R) :
  Forall (fun x => 0 <= x) P -> 0 < norm1 P ->
  np_sum (map (fun x => x / norm1 P) P) = 1.
Proof.
  intros H0 HP. rewrite np_sum_div, <- (norm1_nonneg P H0). field. lra.
Qed.

Lemma JSD_distributions_bounded (p q : list R) :
  length p = length q ->
  Forall (fun x => 0 <= x) p -> Forall (fun x => 0 <= x) q ->
  np_sum p = 1 -> np_sum q = 1 ->
  exists r : R, JSD p q = Ok r /\ 0 <= r <= ln 2.
Proof.
  intros Hl Hp Hq Sp Sq.
  rewrite (JSD_on_distributions p q Hp Hq Sp Sq).
  rewrite (np_add_same_shape p q Hl). cbn [bind]. cbv zeta.
  set (m := np_scale (1 / 2) (map2 Rplus p q)).
  assert (Sm : np_sum m = 1).
  { unfold m. rewrite (midpoint_sum p q Hl), Sp, Sq. lra. }
  destruct (midpoint_dominates p q Hl Hp Hq) as [Dp Dq]. fold m in Dp, Dq.
  destruct (entropy_bounds p m Sp Sm Dp) as [a [Ea Ha]].
  destruct (entropy_bounds q m Sq Sm Dq) as [b [Eb Hb]].
  exists (1 / 2 * (a + b)). rewrite Ea, Eb. cbn [bind].
  split; [reflexivity|]. lra.
Qed.

Lemma midpoint_self (p : list R) : np_scale (1 / 2) (map2 Rplus p p) = p.
Proof.
  unfold np_scale. induction p as [|a p IH]; [reflexivity|].
  cbn [map2 map]. rewrite IH. f_equal. lra.
Qed.

Lemma midpoint_eq (p q : list R) :
  length p = length q -> np_scale (1 / 2) (map2 Rplus p q) = p -> p = q.
Proof.
  unfold np_scale. revert q.
  induction p as [|a p IH]; intros [|b q] Hl H; simpl in *; try lia; [reflexivity|].
  injection H as Hab Hrest.
  f_equal; [lra|]. apply IH; [lia|exact Hrest].
Qed.

Lemma all_finite_self (p : list R) :
  Forall (fun x => 0 <= x) p ->
  exists vec : list R, all_finite (map2 rel_entr p p) = Ok vec /\ np_sum vec = 0.
Proof.
  unfold np_sum.
  induction 1 as [|a p Ha _ [vec [Ev Hv]]]; [exists []; split; reflexivity|].
  exists (0 :: vec). cbn [map2 all_finite]. split; [|simpl; lra].
  destruct (Rle_lt_or_eq_dec 0 a Ha) as [Hpos| <-].
  - rewrite rel_entr_pos by exact Hpos.
    replace (a / a) with 1 by (field; lra).
    rewrite ln_1, Rmult_0_r, Ev. reflexivity.
  - rewrite rel_entr_zero by lra. rewrite Ev. reflexivity.
Qed.

Lemma JSD_self_distribution (p : list R) :
  Forall (fun x => 0 <= x) p -> np_sum p = 1 -> JSD p p = Ok 0.
Proof.
  intros Hp Sp.
  rewrite (JSD_on_distributions p p Hp Hp Sp Sp).
  rewrite (np_add_same_shape p p eq_refl). cbn [bind]. cbv zeta.
  rewrite midpoint_self, (entropy_normalised p p Sp Sp eq_refl).
  destruct (all_finite_self p Hp) as [vec [Ev Hv]].
  rewrite Ev. cbn [bind]. rewrite Hv. f_equal. lra.
Qed.

Lemma JSD_as_normalised (P Q : list R) :
  Forall (fun x => 0 <= x) P -> Forall (fun x => 0 <= x) Q ->
  0 < norm1 P -> 0 < norm1 Q ->
  JSD P Q = JSD (map (fun x => x / norm1 P) P) (map (fun x => x / norm1 Q) Q).
Proof.
  intros HP0 HQ0 HP HQ.
  rewrite (JSD_on_distributions (map (fun x => x / norm1 P) P)
                                (map (fun x => x / norm1 Q) Q)).
  - now apply JSD_normalised.
  - now apply normalised_nonneg.
  - now apply normalised_nonneg.
  - now apply normalised_sum.
  - now apply normalised_sum.
Qed.

(** X11. The divergence of a non-negative array of positive norm from
    itself is zero. *)
Theorem JSD_self (P : list R) :
  Forall (fun x => 0 <= x) P -> 0 < norm1 P -> JSD P P = Ok 0.
Proof.
  intros H0 HP.
  rewrite (JSD_as_normalised P P H0 H0 HP HP).
  apply JSD_self_distribution; [now apply normalised_nonneg|now apply normalised_sum].
Qed.

(** An entry meets the lower bound of [rel_entr_bounds] only when it
    equals the entry it is compared with. *)
Lemma rel_entr_tight (a b r : R) :
  0 <= a -> a <= 2 * b -> rel_entr a b = Some r -> r = a - b -> a = b.
Proof.
  intros Ha Hb Hr E.
  destruct (Rle_lt_or_eq_dec 0 a Ha) as [Hpos| <-].
  - assert (Hbpos : 0 < b) by lra.
    rewrite rel_entr_pos in Hr by assumption. injection Hr as <-.
    destruct (Req_dec_T a b) as [Eab|Nab]; [exact Eab|]. exfalso.
    assert (Hq : 0 < b / a) by (apply Rdiv_lt_0_compat; lra).
    assert (Hx : b / a - 1 <> 0).
    { intros Hz. apply Nab.
      assert (Hba : b / a = 1) by lra.
      apply (f_equal (fun t => t * a)) in Hba.
      replace (b / a * a) with b in Hba by (field; lra). lra. }
    pose proof (exp_ineq1 (b / a - 1) Hx) as He.
    assert (Hl : ln (b / a) < b / a - 1).
    { rewrite <- (ln_exp (b / a - 1)). apply ln_increasing; lra. }
    replace (a / b) with (/ (b / a)) in E by (field; lra).
    rewrite ln_Rinv in E by exact Hq.
    assert (Hmul : a * ln (b / a) < a * (b / a - 1)).
    { apply Rmult_lt_compat_l; assumption. }
    replace (a * (b / a - 1)) with (b - a) in Hmul by (field; lra).
    lra.
  - rewrite rel_entr_zero in Hr by lra. injection Hr as <-. lra.
Qed.

Lemma all_finite_tight (p m vec : list R) :
  Forall2 (fun a b => 0 <= a /\ a <= 2 * b) p m ->
  all_finite (map2 rel_entr p m) = Ok vec ->
  np_sum vec = np_sum p - np_sum m ->
  p = m.
Proof.
  intros H. revert vec.
  induction H as [|a b p m [Ha Hb] Hrest IH]; intros vec Ev Hs; [reflexivity|].
  destruct (rel_entr_bounds a b Ha Hb) as [r [Er Hr]].
  destruct (all_finite_bounds p m Hrest) as [vec' [Ev' Hv']].
  cbn [map2 all_finite] in Ev. rewrite Er, Ev' in Ev. cbn [bind] in Ev.
  injection Ev as <-.
  unfold np_sum in *. cbn [fold_right] in Hs.
  assert (E1 : r = a - b) by lra.
  assert (E2 : fold_right Rplus 0 vec' =
               fold_right Rplus 0 p - fold_right Rplus 0 m) by lra.
  f_equal; [exact (rel_entr_tight a b r Ha Hb Er E1)|exact (IH vec' Ev' E2)].
Qed.

Lemma JSD_zero_distributions (p q : list R) :
  length p = length q ->
  Forall (fun x => 0 <= x) p -> Forall (fun x => 0 <= x) q ->
  np_sum p = 1 -> np_sum q = 1 ->
  JSD p q = Ok 0 -> p = q.
Proof.
  intros Hl Hp Hq Sp Sq H.
  rewrite (JSD_on_distributions p q Hp Hq Sp Sq) in H.
  rewrite (np_add_same_shape p q Hl) in H. cbn [bind] in H. cbv zeta in H.
  set (m := np_scale (1 / 2) (map2 Rplus p q)) in *.
  assert (Sm : np_sum m = 1).
  { unfold m. rewrite (midpoint_sum p q Hl), Sp, Sq. lra. }
  assert (Lm : length m = length p).
  { unfold m, np_scale. rewrite length_map. now apply map2_length. }
  destruct (midpoint_dominates p q Hl Hp Hq) as [Dp Dq]. fold m in Dp, Dq.
  destruct (all_finite_bounds p m Dp) as [v1 [E1 B1]].
  destruct (all_finite_bounds q m Dq) as [v2 [E2 B2]].
  rewrite (entropy_normalised p m Sp Sm Lm) in H.
  rewrite (entropy_normalised q m Sq Sm (eq_trans Lm Hl)) in H.
  rewrite E1, E2 in H. cbn [bind] in H. injection H as H.
  rewrite Sp, Sm in B1. rewrite Sq, Sm in B2.
  assert (T1 : np_sum v1 = np_sum p - np_sum m) by (rewrite Sp, Sm; lra).
  pose proof (all_finite_tight p m v1 Dp E1 T1) as Epm.
  apply midpoint_eq; [exact Hl|]. fold m. now symmetry.
Qed.

(** X12. In exact real arithmetic: on non-negative arrays of equal length
    and positive norm the divergence is zero exactly when the two arrays,
    each divided by its norm, are the same distribution. *)
Theorem JSD_zero_iff (P Q : list R) :
  length P = length Q ->
  Forall (fun x => 0 <= x) P -> Forall (fun x => 0 <= x) Q ->
  0 < norm1 P -> 0 < norm1 Q ->
  (JSD P Q = Ok 0 <->
   map (fun x => x / norm1 P) P = map (fun x => x / norm1 Q) Q).
Proof.
  intros Hl HP0 HQ0 HP HQ.
  rewrite (JSD_as_normalised P Q HP0 HQ0 HP HQ).
  split.
  - apply JSD_zero_distributions.
    + now rewrite !length_map.
    + now apply normalised_nonneg.
    + now apply normalised_nonneg.
    + now apply normalised_sum.
    + now apply normalised_sum.
  - intros <-. apply JSD_self_distribution;
      [now apply normalised_nonneg|now apply normalised_sum].
Qed.

Lemma all_finite_disjoint (p q : list R) :
  Forall2 (fun a b => 0 <= a /\ 0 <= b /\ (a = 0 \/ b = 0)) p q ->
  exists vec : list R,
    all_finite (map2 rel_entr p (np_scale (1 / 2) (map2 Rplus p q))) = Ok vec /\
    np_sum vec = np_sum p * ln 2.
Proof.
  unfold np_sum, np_scale.
  induction 1 as [|a b p q [Ha [Hb Hab]] _ [vec [Ev Hv]]].
  - exists []. split; [reflexivity|]. simpl. lra.
  - exists (a * ln 2 :: vec). cbn [map2 map all_finite fold_right].
    split; [|rewrite Hv; lra].
    destruct (Rle_lt_or_eq_dec 0 a Ha) as [Hpos| <-].
    + destruct Hab as [->| ->]; [lra|].
      rewrite rel_entr_pos by lra.
      replace (a / (1 / 2 * (a + 0))) with 2 by (field; lra).
      rewrite Ev. reflexivity.
    + rewrite rel_entr_zero by lra. rewrite Ev, Rmult_0_l. reflexivity.
Qed.

Lemma normalised_disjoint (P Q : list R) (dP dQ : R) :
  0 < dP -> 0 < dQ ->
  Forall (fun x => 0 <= x) P -> Forall (fun x => 0 <= x) Q ->
  Forall2 (fun a b => a = 0 \/ b = 0) P Q ->
  Forall2 (fun a b => 0 <= a /\ 0 <= b /\ (a = 0 \/ b = 0))
          (map (fun x => x / dP) P) (map (fun x => x / dQ) Q).
Proof.
  intros HdP HdQ HP HQ H. revert HP HQ.
  induction H as [|a b P Q Hab _ IH]; intros HP HQ; [constructor|].
  inversion HP as [|? ? Ha HP']; inversion HQ as [|? ? Hb HQ']; subst.
  cbn [map]. constructor; [|now apply IH].
  assert (IP : 0 < / dP) by (now apply Rinv_0_lt_compat).
  assert (IQ : 0 < / dQ) by (now apply Rinv_0_lt_compat).
  split; [apply Rmult_le_pos; lra|split; [apply Rmult_le_pos; lra|]].
  destruct Hab as [->| ->]; [left|right]; unfold Rdiv; lra.
Qed.

(** X13. In exact real arithmetic the upper bound is attained: on
    non-negative arrays of positive norm that are never both non-zero at
    the same index the divergence is [ln 2]. *)
Theorem JSD_disjoint (P Q : list R) :
  Forall (fun x => 0 <= x) P -> Forall (fun x => 0 <= x) Q ->
  0 < norm1 P -> 0 < norm1 Q ->
  Forall2 (fun a b => a = 0 \/ b = 0) P Q ->
  JSD P Q = Ok (ln 2).
Proof.
  intros HP0 HQ0 HP HQ Hd.
  rewrite (JSD_as_normalised P Q HP0 HQ0 HP HQ).
  pose proof (normalised_disjoint P Q _ _ HP HQ HP0 HQ0 Hd) as D.
  set (p := map (fun x => x / norm1 P) P) in *.
  set (q := map (fun x => x / norm1 Q) Q) in *.
  assert (Hp : Forall (fun x => 0 <= x) p) by (now apply normalised_nonneg).
  assert (Hq : Forall (fun x => 0 <= x) q) by (now apply normalised_nonneg).
  assert (Sp : np_sum p = 1) by (now apply normalised_sum).
  assert (Sq : np_sum q = 1) by (now apply normalised_sum).
  assert (Hl : length p = length q) by exact (Forall2_length D).
  assert (D' : Forall2 (fun a b => 0 <= a /\ 0 <= b /\ (a = 0 \/ b = 0)) q p).
  { apply Forall2_flip in D. eapply Forall2_impl; [|exact D].
    intros a b [H1 [H2 H3]]. tauto. }
  rewrite (JSD_on_distributions p q Hp Hq Sp Sq).
  rewrite (np_add_same_shape p q Hl). cbn [bind]. cbv zeta.
  set (m := np_scale (1 / 2) (map2 Rplus p q)).
  assert (Sm : np_sum m = 1).
  { unfold m. rewrite (midpoint_sum p q Hl), Sp, Sq. lra. }
  assert (Lm : length m = length p).
  { unfold m, np_scale. rewrite length_map. now apply map2_length. }
  destruct (all_finite_disjoint p q D) as [v1 [E1 S1]]. fold m in E1.
  destruct (all_finite_disjoint q p D') as [v2 [E2 S2]].
  rewrite (map2_Rplus_comm q p) in E2. fold m in E2.
  rewrite (entropy_normalised p m Sp Sm Lm).
  rewrite (entropy_normalised q m Sq Sm (eq_trans Lm Hl)).
  rewrite E1, E2. cbn [bind]. rewrite S1, S2, Sp, Sq. f_equal. lra.
Qed.

(** X14. Arrays of positive norm whose lengths differ, neither being of
    length one, cannot be added: [JSD] raises [ValueError]. *)
Theorem JSD_shape_mismatch (P Q : list R) :
  0 < norm1 P -> 0 < norm1 Q ->
  length P <> length Q -> length P <> 1%nat -> length Q <> 1%nat ->
  JSD P Q = Raise ValueError.
Proof.
  intros HP HQ Hl HP1 HQ1.
  rewrite (JSD_normalised P Q HP HQ). cbv zeta.
  unfold np_add. rewrite !length_map.
  destruct (Nat.eqb_spec (length P) (length Q)) as [E|_]; [contradiction|].
  destruct P as [|a [|a' P]]; destruct Q as [|b [|b' Q]];
    simpl in *; try reflexivity; contradiction.
Qed.

Lemma probs_from_counts_distribution_shape (counts : Counts) (n : nat) :
  counts <> [] ->
  NoDup (map fst counts) ->
  Forall (fun xc => length (fst xc) = n /\ Forall is_bit (fst xc)) counts ->
  Forall (fun xc => 0 <= snd xc) counts ->
  0 < total counts ->
  exists v : list R,
    probs_from_counts counts = Ok v /\
    length v = (2 ^ n)%nat /\ Forall (fun x => 0 <= x) v /\ np_sum v = 1.
Proof.
  intros Hne Hnd Hkeys Hpos Htot.
  assert (Hv : probs_from_counts counts =
               Ok (map (fun x => counts_get x counts / total counts)
                       (product_repeat [0%Z; 1%Z] n))).
  { apply probs_from_counts_value; try assumption. lra. }
  eexists. split; [exact Hv|]. split; [|split].
  - now rewrite length_map, product_repeat_length.
  - apply Forall_forall. intros p Hp. apply in_map_iff in Hp.
    destruct Hp as [x [<- _]].
    destruct (counts_get_bounds counts x Hpos) as [[H0 _] _].
    apply Rmult_le_pos; [exact H0|]. left. now apply Rinv_0_lt_compat.
  - rewrite <- (map_map (fun x => counts_get x counts) (fun r => r / total counts)).
    rewrite np_sum_div, np_sum_counts.
    + field. lra.
    + apply product_bits_NoDup.
    + exact Hnd.
    + intros x Hx. apply in_map_iff in Hx. destruct Hx as [[y c] [<- Hin]].
      rewrite Forall_forall in Hkeys. apply product_bits_in. exact (Hkeys _ Hin).
Qed.

(** X15. In exact real arithmetic the notebook's comparison is well
    defined: for two well-formed, non-negative counts over readouts of the
    same length, with positive totals and small enough for [int64],
    [probs_from_counts] returns two vectors and [JSD] of them returns a
    number between [0] and [ln 2]. *)
Theorem JSD_of_counts (counts1 counts2 : Counts) (n : nat) :
  counts1 <> [] -> counts2 <> [] ->
  NoDup (map fst counts1) -> NoDup (map fst counts2) ->
  Forall (fun xc => length (fst xc) = n /\ Forall is_bit (fst xc)) counts1 ->
  Forall (fun xc => length (fst xc) = n /\ Forall is_bit (fst xc)) counts2 ->
  Forall (fun xc => 0 <= snd xc) counts1 ->
  Forall (fun xc => 0 <= snd xc) counts2 ->
  0 < total counts1 -> 0 < total counts2 ->
  int64_safe counts1 -> int64_safe counts2 ->
  exists (v1 v2 : list R) (r : R),
    probs_from_counts counts1 = Ok v1 /\
    probs_from_counts counts2 = Ok v2 /\
    JSD v1 v2 = Ok r /\ 0 <= r <= ln 2.
Proof.
  intros Hne1 Hne2 Hnd1 Hnd2 Hk1 Hk2 Hp1 Hp2 Ht1 Ht2 _ _.
  destruct (probs_from_counts_distribution_shape counts1 n Hne1 Hnd1 Hk1 Hp1 Ht1)
    as [v1 [E1 [L1 [N1 S1]]]].
  destruct (probs_from_counts_distribution_shape counts2 n Hne2 Hnd2 Hk2 Hp2 Ht2)
    as [v2 [E2 [L2 [N2 S2]]]].
  destruct (JSD_distributions_bounded v1 v2 (eq_trans L1 (eq_sym L2)) N1 N2 S1 S2)
    as [r [Er Hr]].
  exists v1, v2, r. auto.
Qed.

(** ** A corrected result that is never read *)

(** X16. Cell 25 computes [ghz_spam_corrected_ourense_counts] and no
    statement ever reads it: the probabilities that cell reports for the
    minimise-corrected device run are taken from
    [ghz_spam_corrected_counts], which is assigned once, in cell 15, from
    the simulator's counts. *)
Theorem corrected_ourense_counts_unused :
  Dataflow.uses "ghz_spam_corrected_ourense_counts" Dataflow.program = [] /\
  Dataflow.definitions "ghz_spam_corrected_ourense_probabilities" Dataflow.program =
    [Dataflow.Stmt 25 ["ghz_spam_corrected_ourense_probabilities"%string]
       ["probs_from_counts"%string; "ghz_spam_corrected_counts"%string]] /\
  Dataflow.definitions "ghz_spam_corrected_counts" Dataflow.program =
    [Dataflow.Stmt 15 ["ghz_spam_corrected_counts"%string]
       ["ourense_spam"%string; "ghz_noisy_counts"%string; "ghz_circuit"%string]] /\
  Dataflow.reaching "ghz_noisy_counts"
    (filter (fun s => Nat.leb (Dataflow.cell s) 14) Dataflow.program) =
    Some (Dataflow.Stmt 13 ["ghz_noisy_counts"%string]
            ["pytket_noisy_sim_backend"%string; "ghz_circuit"%string; "n_shots"%string]).
Proof. repeat split; vm_compute; reflexivity. Qed.

(** ** The further statements at sample inputs *)

Lemma sample_counts_nonneg : Forall (fun xc => 0 <= snd xc) sample_counts.
Proof. unfold sample_counts. repeat (apply Forall_cons; [simpl; lra|]). apply Forall_nil. Qed.

Lemma sample_counts_nonempty : sample_counts <> [].
Proof. discriminate. Qed.

Lemma sample_reordered_perm : Permutation sample_counts sample_reordered.
Proof. apply perm_swap. Qed.

Lemma sample_reordered_nonempty : sample_reordered <> [].
Proof. discriminate. Qed.

Lemma sample_reordered_keys : NoDup (map fst sample_reordered).
Proof.
  simpl. constructor; [|constructor; [intros []|constructor]].
  intros [H|[]]. discriminate H.
Qed.

Lemma sample_reordered_bits :
  Forall (fun xc => length (fst xc) = 2%nat /\ Forall is_bit (fst xc)) sample_reordered.
Proof.
  unfold sample_reordered, is_bit.
  repeat (apply Forall_cons;
          [split; [reflexivity|repeat (apply Forall_cons; [auto|]); apply Forall_nil]|]).
  apply Forall_nil.
Qed.

Lemma sample_reordered_nonneg : Forall (fun xc => 0 <= snd xc) sample_reordered.
Proof.
  unfold sample_reordered. repeat (apply Forall_cons; [simpl; lra|]). apply Forall_nil.
Qed.

Lemma sample_reordered_total : 0 < total sample_reordered.
Proof. unfold total, sample_reordered. simpl. lra. Qed.





Lemma sample_mixed_keys : NoDup (map fst sample_mixed).
Proof.
  simpl. repeat constructor; simpl; intuition discriminate.
Qed.

Lemma sample_mixed_bits : Forall (fun xc => Forall is_bit (fst xc)) sample_mixed.
Proof.
  unfold sample_mixed, is_bit.
  repeat (apply Forall_cons;
          [repeat (apply Forall_cons; [auto|]); apply Forall_nil|]).
  apply Forall_nil.
Qed.

Lemma sample_P3_norm : 0 < norm1 sample_P3.
Proof. unfold norm1, sample_P3. simpl. rewrite Rabs_R1, Rabs_R0. lra. Qed.

Lemma sample_bits_01 : Forall is_bit [0%Z; 1%Z].
Proof. unfold is_bit. repeat (apply Forall_cons; [auto|]). apply Forall_nil. Qed.

Lemma sample_bits_11 : Forall is_bit [1%Z; 1%Z].
Proof. unfold is_bit. repeat (apply Forall_cons; [auto|]). apply Forall_nil. Qed.

Lemma sample_disjoint : Forall2 (fun a b : R => a = 0 \/ b = 0) sample_P sample_Q.
Proof.
  unfold sample_P, sample_Q.
  apply Forall2_cons; [right; reflexivity|].
  apply Forall2_cons; [left; reflexivity|apply Forall2_nil].
Qed.

Lemma two_nonzero : 2 <> 0.
Proof. lra. Qed.

Lemma total_nonzero_sample : total sample_counts <> 0.
Proof. pose proof sample_counts_total. lra. Qed.

Lemma sample_counts_safe : int64_safe sample_counts.
Proof.
  unfold int64_safe, sample_counts, np_sum. cbn [map fold_right snd].
  rewrite !Rabs_right by lra. simpl. lra.
Qed.

Lemma sample_reordered_safe : int64_safe sample_reordered.
Proof.
  unfold int64_safe, sample_reordered, np_sum. cbn [map fold_right snd].
  rewrite !Rabs_right by lra. simpl. lra.
Qed.

Lemma sample_mixed_safe : int64_safe sample_mixed.
Proof.
  unfold int64_safe, sample_mixed, np_sum. cbn [map fold_right snd].
  rewrite !Rabs_right by lra. simpl. lra.
Qed.

Lemma sample_mixed_scaled_safe : int64_safe (scale_counts 2 sample_mixed).
Proof.
  unfold int64_safe, scale_counts, sample_mixed, np_sum. cbn [map fold_right snd fst].
  rewrite !Rabs_right by lra. simpl. lra.
Qed.

Lemma key_of_faithful_witness :
  Forall is_bit [0%Z; 1%Z] /\ Forall is_bit [1%Z; 1%Z] /\
  String.length (key_of [0%Z; 1%Z]) = length [0%Z; 1%Z] /\
  readout_of (key_of [0%Z; 1%Z]) = [0%Z; 1%Z] /\
  (key_of [0%Z; 1%Z] = key_of [1%Z; 1%Z] <-> [0%Z; 1%Z] = [1%Z; 1%Z]).
Proof.
  exact (conj sample_bits_01 (conj sample_bits_11
           (key_of_faithful _ _ sample_bits_01 sample_bits_11))).
Defined.

Lemma probs_from_counts_normalised_witness :
  int64_safe sample_counts /\
  probs_from_counts sample_counts = Ok [3 / 4; 0 / 4; 0 / 4; 1 / 4] /\
  np_sum [3 / 4; 0 / 4; 0 / 4; 1 / 4] = 1 /\
  length [3 / 4; 0 / 4; 0 / 4; 1 / 4] = (2 ^ first_key_length sample_counts)%nat /\
  sample_counts <> [].
Proof.
  exact (conj sample_counts_safe (conj probs_from_counts_sample
           (probs_from_counts_normalised _ _ sample_counts_safe
              probs_from_counts_sample))).
Defined.


Lemma probs_from_counts_first_length_witness :
  NoDup (map fst sample_mixed) /\
  Forall (fun xc => Forall is_bit (fst xc)) sample_mixed /\
  probs_from_counts sample_mixed = probs_from_counts (keep_first_length sample_mixed).
Proof.
  exact (conj sample_mixed_keys (conj sample_mixed_bits
           (probs_from_counts_first_length _ sample_mixed_keys sample_mixed_bits))).
Defined.

Lemma probs_from_counts_order_witness :
  NoDup (map fst sample_counts) /\
  Forall (fun xc => length (fst xc) = 2%nat /\ Forall is_bit (fst xc)) sample_counts /\
  Permutation sample_counts sample_reordered /\
  probs_from_counts sample_reordered = probs_from_counts sample_counts.
Proof.
  exact (conj sample_counts_keys (conj sample_counts_bits (conj sample_reordered_perm
           (probs_from_counts_order _ _ 2 sample_counts_keys sample_counts_bits
              sample_reordered_perm)))).
Defined.

Lemma probs_from_counts_scale_witness :
  2 <> 0 /\
  int64_safe sample_mixed /\ int64_safe (scale_counts 2 sample_mixed) /\
  probs_from_counts (scale_counts 2 sample_mixed) = probs_from_counts sample_mixed.
Proof.
  exact (conj two_nonzero (conj sample_mixed_safe (conj sample_mixed_scaled_safe
           (probs_from_counts_scale 2 sample_mixed two_nonzero
              sample_mixed_safe sample_mixed_scaled_safe)))).
Defined.

Lemma probs_from_counts_probabilities_witness :
  sample_counts <> [] /\
  NoDup (map fst sample_counts) /\
  Forall (fun xc => length (fst xc) = 2%nat /\ Forall is_bit (fst xc)) sample_counts /\
  Forall (fun xc => 0 <= snd xc) sample_counts /\
  0 < total sample_counts /\
  int64_safe sample_counts /\
  exists v : list R,
    probs_from_counts sample_counts = Ok v /\ Forall (fun p => 0 <= p <= 1) v.
Proof.
  exact (conj sample_counts_nonempty (conj sample_counts_keys (conj sample_counts_bits
           (conj sample_counts_nonneg (conj sample_counts_total
              (conj sample_counts_safe
                 (probs_from_counts_probabilities _ 2 sample_counts_nonempty
                    sample_counts_keys sample_counts_bits sample_counts_nonneg
                    sample_counts_total sample_counts_safe))))))).
Defined.

Lemma JSD_self_witness :
  Forall (fun x => 0 <= x) sample_P /\ 0 < norm1 sample_P /\
  JSD sample_P sample_P = Ok 0.
Proof.
  exact (conj sample_P_nonneg (conj sample_P_norm
           (JSD_self sample_P sample_P_nonneg sample_P_norm))).
Defined.

Lemma JSD_zero_iff_witness :
  length sample_P = length sample_Q /\
  Forall (fun x => 0 <= x) sample_P /\ Forall (fun x => 0 <= x) sample_Q /\
  0 < norm1 sample_P /\ 0 < norm1 sample_Q /\
  (JSD sample_P sample_Q = Ok 0 <->
   map (fun x => x / norm1 sample_P) sample_P =
   map (fun x => x / norm1 sample_Q) sample_Q).
Proof.
  exact (conj eq_refl (conj sample_P_nonneg (conj sample_Q_nonneg
           (conj sample_P_norm (conj sample_Q_norm
              (JSD_zero_iff sample_P sample_Q eq_refl sample_P_nonneg sample_Q_nonneg
                 sample_P_norm sample_Q_norm)))))).
Defined.

Lemma JSD_disjoint_witness :
  Forall (fun x => 0 <= x) sample_P /\ Forall (fun x => 0 <= x) sample_Q /\
  0 < norm1 sample_P /\ 0 < norm1 sample_Q /\
  Forall2 (fun a b : R => a = 0 \/ b = 0) sample_P sample_Q /\
  JSD sample_P sample_Q = Ok (ln 2).
Proof.
  exact (conj sample_P_nonneg (conj sample_Q_nonneg (conj sample_P_norm
           (conj sample_Q_norm (conj sample_disjoint
              (JSD_disjoint sample_P sample_Q sample_P_nonneg sample_Q_nonneg
                 sample_P_norm sample_Q_norm sample_disjoint)))))).
Defined.

Lemma sample_lengths_differ : length sample_P3 <> length sample_P.
Proof. discriminate. Qed.

Lemma sample_P3_not_single : length sample_P3 <> 1%nat.
Proof. discriminate. Qed.

Lemma sample_P_not_single : length sample_P <> 1%nat.
Proof. discriminate. Qed.

Lemma JSD_shape_mismatch_witness :
  0 < norm1 sample_P3 /\ 0 < norm1 sample_P /\
  length sample_P3 <> length sample_P /\
  length sample_P3 <> 1%nat /\ length sample_P <> 1%nat /\
  JSD sample_P3 sample_P = Raise ValueError.
Proof.
  exact (conj sample_P3_norm (conj sample_P_norm (conj sample_lengths_differ
           (conj sample_P3_not_single (conj sample_P_not_single
              (JSD_shape_mismatch sample_P3 sample_P sample_P3_norm sample_P_norm
                 sample_lengths_differ sample_P3_not_single sample_P_not_single)))))).
Defined.

Lemma JSD_of_counts_witness :
  sample_counts <> [] /\ sample_reordered <> [] /\
  NoDup (map fst sample_counts) /\ NoDup (map fst sample_reordered) /\
  Forall (fun xc => length (fst xc) = 2%nat /\ Forall is_bit (fst xc)) sample_counts /\
  Forall (fun xc => length (fst xc) = 2%nat /\ Forall is_bit (fst xc)) sample_reordered /\
  Forall (fun xc => 0 <= snd xc) sample_counts /\
  Forall (fun xc => 0 <= snd xc) sample_reordered /\
  0 < total sample_counts /\ 0 < total sample_reordered /\
  int64_safe sample_counts /\ int64_safe sample_reordered /\
  exists (v1 v2 : list R) (r : R),
    probs_from_counts sample_counts = Ok v1 /\
    probs_from_counts sample_reordered = Ok v2 /\
    JSD v1 v2 = Ok r /\ 0 <= r <= ln 2.
Proof.
  exact (conj sample_counts_nonempty (conj sample_reordered_nonempty
          (conj sample_counts_keys (conj sample_reordered_keys
          (conj sample_counts_bits (conj sample_reordered_bits
          (conj sample_counts_nonneg (conj sample_reordered_nonneg
          (conj sample_counts_total (conj sample_reordered_total
          (conj sample_counts_safe (conj sample_reordered_safe
            (JSD_of_counts _ _ 2 sample_counts_nonempty sample_reordered_nonempty
               sample_counts_keys sample_reordered_keys
               sample_counts_bits sample_reordered_bits
               sample_counts_nonneg sample_reordered_nonneg
               sample_counts_total sample_reordered_total
               sample_counts_safe sample_reordered_safe))))))))))))).
Defined.

(** What the mixed-length sample comes to: the one-bit readout is dropped
    and the two-bit ones are normalised among themselves. *)
Example probs_from_counts_mixed :
  probs_from_counts sample_mixed = Ok [3 / 4; 0 / 4; 0 / 4; 1 / 4].
Proof.
  unfold probs_from_counts, sample_mixed. cbn -[np_div].
  replace (3 + (0 + (0 + (1 + 0)))) with 4 by lra.
  rewrite np_div_ok by lra. reflexivity.
Qed.

(** * The functions in binary64 and int64 arithmetic *)

(** ** Sums of [int64] arrays *)

Lemma wrap_wrap_add (a b : Z) : F64.wrap (F64.wrap a + b) = F64.wrap (a + b).
Proof.
  unfold F64.wrap. f_equal.
  replace ((a + 2 ^ 63) mod 2 ^ 64 - 2 ^ 63 + b + 2 ^ 63)%Z
    with ((a + 2 ^ 63) mod 2 ^ 64 + b)%Z by ring.
  rewrite Zplus_mod_idemp_l. f_equal. ring.
Qed.

Lemma wrap_fits (z : Z) : F64.fits_int64 z -> F64.wrap z = z.
Proof.
  unfold F64.fits_int64, F64.wrap. intros H.
  rewrite Z.mod_small; lia.
Qed.

Lemma np_sum_int64_wrap (v : list Z) :
  F64.np_sum_int64 v = F64.wrap (fold_right Z.add 0%Z v).
Proof.
  unfold F64.np_sum_int64.
  assert (H : forall acc : Z,
             fold_left (fun acc a => F64.wrap (acc + a)) v (F64.wrap acc) =
             F64.wrap (acc + fold_right Z.add 0%Z v)).
  { induction v as [|a v IH]; intros acc; simpl.
    - now rewrite Z.add_0_r.
    - rewrite wrap_wrap_add, IH. f_equal. ring. }
  specialize (H 0%Z). rewrite Z.add_0_l in H. exact H.
Qed.

(** ** The dict over integer counts *)

Lemma dict_get_set_int (k k' : string) (v : Z) (d : F64.dict) (default : Z) :
  F64.dict_get k (F64.dict_set k' v d) default =
  if String.eqb k k' then v else F64.dict_get k d default.
Proof.
  induction d as [|[k0 v0] d IH]; simpl.
  - reflexivity.
  - destruct (String.eqb k' k0) eqn:E0; simpl.
    + apply String.eqb_eq in E0. subst k0.
      destruct (String.eqb k k'); reflexivity.
    + rewrite IH. destruct (String.eqb k k0) eqn:E1; [|reflexivity].
      apply String.eqb_eq in E1. subst k0.
      rewrite String.eqb_sym, E0. reflexivity.
Qed.

Lemma counts_get_absent_int (x : list Z) (counts : F64.Counts) :
  ~ In x (map fst counts) -> F64.counts_get x counts = 0%Z.
Proof.
  induction counts as [|[x' c] counts IH]; simpl; intros Hn; [reflexivity|].
  destruct (list_eq_dec Z.eq_dec x x') as [->|_].
  - exfalso. apply Hn. now left.
  - apply IH. intros Hin. apply Hn. now right.
Qed.

Lemma counts_dict_get_int (counts : F64.Counts) (d : F64.dict) (y : list Z) :
  NoDup (map fst counts) ->
  Forall (fun xc => Forall is_bit (fst xc)) counts ->
  Forall is_bit y ->
  F64.dict_get (key_of y)
    (fold_left (fun d xc => F64.dict_set (key_of (fst xc)) (snd xc) d) counts d) 0%Z =
  if in_dec (list_eq_dec Z.eq_dec) y (map fst counts)
  then F64.counts_get y counts
  else F64.dict_get (key_of y) d 0%Z.
Proof.
  intros Hnd Hbits Hy. revert d.
  induction counts as [|[x c] counts IH]; intros d.
  - reflexivity.
  - cbn [fold_left fst snd map F64.counts_get].
    inversion Hnd as [|? ? Hx Hnd']; subst.
    inversion Hbits as [|? ? Hbx Hbits']; subst. cbn [fst] in Hbx.
    rewrite (IH Hnd' Hbits'), dict_get_set_int.
    destruct (list_eq_dec Z.eq_dec y x) as [->|Hne].
    + rewrite String.eqb_refl.
      destruct (in_dec (list_eq_dec Z.eq_dec) x (map fst counts)) as [Hin|_];
        [contradiction|].
      destruct (in_dec (list_eq_dec Z.eq_dec) x (x :: map fst counts)) as [_|Hn];
        [reflexivity|].
      exfalso. apply Hn. now left.
    + assert (Hk : String.eqb (key_of y) (key_of x) = false).
      { apply String.eqb_neq. intros E. apply Hne. now apply key_of_inj. }
      rewrite Hk.
      destruct (in_dec (list_eq_dec Z.eq_dec) y (map fst counts)) as [Hin|Hnin];
        destruct (in_dec (list_eq_dec Z.eq_dec) y (x :: map fst counts)) as [Hin'|Hnin'];
        try reflexivity.
      * exfalso. apply Hnin'. now right.
      * exfalso. destruct Hin' as [E|Hin']; [now apply Hne|contradiction].
Qed.

Lemma converted_int (counts : F64.Counts) (n : nat) :
  NoDup (map fst counts) ->
  Forall (fun xc => Forall is_bit (fst xc)) counts ->
  map (fun b =>
         F64.dict_get b
           (fold_left (fun d xc => F64.dict_set (key_of (fst xc)) (snd xc) d) counts [])
           0%Z)
      (binseq n) =
  map (fun x => F64.counts_get x counts) (product_repeat [0%Z; 1%Z] n).
Proof.
  intros Hnd Hbits.
  rewrite binseq_tuples, map_map.
  apply map_ext_in. intros x Hx.
  apply product_bits_in in Hx. destruct Hx as [_ Hx].
  rewrite counts_dict_get_int by assumption.
  destruct (in_dec (list_eq_dec Z.eq_dec) x (map fst counts)) as [_|Hn];
    [reflexivity|].
  simpl. symmetry. now apply counts_get_absent_int.
Qed.

Lemma sum_single_int (L : list (list Z)) (k : list Z) (c : Z) (f : list Z -> Z) :
  NoDup L -> In k L -> f k = 0%Z ->
  fold_right Z.add 0%Z (map (fun x => if list_eq_dec Z.eq_dec x k then c else f x) L) =
  (c + fold_right Z.add 0%Z (map f L))%Z.
Proof.
  induction L as [|x L IH]; intros Hnd Hin Hf; [destruct Hin|].
  inversion Hnd as [|? ? Hx HL]; subst. cbn [map fold_right].
  destruct (list_eq_dec Z.eq_dec x k) as [->|Hne].
  - rewrite Hf.
    assert (E : map (fun x => if list_eq_dec Z.eq_dec x k then c else f x) L = map f L).
    { apply map_ext_in. intros a Ha.
      destruct (list_eq_dec Z.eq_dec a k) as [->|_]; [contradiction|reflexivity]. }
    rewrite E. lia.
  - destruct Hin as [E|Hin]; [contradiction|].
    rewrite (IH HL Hin Hf). lia.
Qed.

Lemma sum_counts_int (L : list (list Z)) (counts : F64.Counts) :
  NoDup L -> NoDup (map fst counts) ->
  (forall x, In x (map fst counts) -> In x L) ->
  fold_right Z.add 0%Z (map (fun x => F64.counts_get x counts) L) = F64.total counts.
Proof.
  intros HL. unfold F64.total.
  induction counts as [|[k c] counts IH]; intros Hnd Hsub.
  - cbn [F64.counts_get map fold_right].
    clear HL Hnd Hsub. induction L as [|x L IHL]; simpl; [reflexivity|].
    rewrite IHL. reflexivity.
  - inversion Hnd as [|? ? Hk Hnd']; subst.
    cbn [F64.counts_get map snd fold_right].
    rewrite (sum_single_int L k c (fun x => F64.counts_get x counts)).
    + rewrite IH; [reflexivity|exact Hnd'|].
      intros x Hx. apply Hsub. now right.
    + exact HL.
    + apply Hsub. now left.
    + now apply counts_get_absent_int.
Qed.

Lemma tuples_by_index (n : nat) :
  product_repeat [0%Z; 1%Z] n = map (bin_digits n) (seq 0 (2 ^ n)).
Proof.
  apply (nth_ext _ _ [] (bin_digits n 0)).
  - now rewrite length_map, length_seq, product_repeat_length.
  - intros i Hi. rewrite product_repeat_length in Hi. simpl length in Hi.
    rewrite (product_bits_nth n i [] Hi).
    rewrite (map_nth (bin_digits n) (seq 0 (2 ^ n)) 0%nat i), seq_nth by exact Hi.
    reflexivity.
Qed.

(** The vector [probs_from_counts] returns on well-formed integer counts
    whose total fits [int64]. *)
Lemma probs_from_counts_int_value (counts : F64.Counts) (n : nat) :
  counts <> [] ->
  NoDup (map fst counts) ->
  Forall (fun xc => length (fst xc) = n /\ Forall is_bit (fst xc)) counts ->
  F64.fits_int64 (F64.total counts) ->
  F64.probs_from_counts counts =
  Ok (map (fun x => (F64.of_int64 (F64.counts_get x counts) /
                     F64.of_int64 (F64.total counts))%float)
          (product_repeat [0%Z; 1%Z] n)) /\
  fold_right Z.add 0%Z
    (map (fun x => F64.counts_get x counts) (product_repeat [0%Z; 1%Z] n)) =
  F64.total counts.
Proof.
  intros Hne Hnd Hkeys Hfit.
  assert (Hbits : Forall (fun xc => Forall is_bit (fst xc)) counts).
  { eapply Forall_impl; [|exact Hkeys]. intros a [_ Ha]. exact Ha. }
  assert (Hsum : fold_right Z.add 0%Z
                   (map (fun x => F64.counts_get x counts)
                        (product_repeat [0%Z; 1%Z] n)) = F64.total counts).
  { apply sum_counts_int; [apply product_bits_NoDup|exact Hnd|].
    intros x Hx. apply in_map_iff in Hx. destruct Hx as [[y c] [<- Hin]].
    rewrite Forall_forall in Hkeys. apply product_bits_in. exact (Hkeys _ Hin). }
  split; [|exact Hsum].
  destruct counts as [|[x0 c0] cs] eqn:E; [contradiction|].
  rewrite <- E in *.
  assert (Hn : length x0 = n).
  { rewrite E in Hkeys. inversion Hkeys as [|? ? [Hl _] _]. exact Hl. }
  assert (Hp : F64.probs_from_counts counts =
               Ok (F64.np_div_int64
                     (map (fun b =>
                             F64.dict_get b
                               (fold_left (fun d xc =>
                                             F64.dict_set (key_of (fst xc)) (snd xc) d)
                                          counts []) 0%Z)
                          (binseq (length x0)))
                     (F64.np_sum_int64
                        (map (fun b =>
                                F64.dict_get b
                                  (fold_left (fun d xc =>
                                                F64.dict_set (key_of (fst xc)) (snd xc) d)
                                             counts []) 0%Z)
                             (binseq (length x0)))))).
  { rewrite E. reflexivity. }
  rewrite Hp, Hn, (converted_int counts n Hnd Hbits).
  rewrite np_sum_int64_wrap, Hsum, (wrap_fits _ Hfit).
  unfold F64.np_div_int64. rewrite map_map. reflexivity.
Qed.

(** ** [probs_from_counts] in binary64 *)

(** C8, as the claim states it, fails.  For the counts 1, 4 and 1 the
    entries are the rounded quotients 1/6, 4/6 and 1/6: numpy's sum of them
    is the number just below one, and as exact numbers they do not sum to
    one either.  For two counts of 2^62 the sum of the counts wraps around
    to -2^63 and both entries are -1/2. *)
Lemma probs_from_counts_not_exact :
  (F64.rounded_counts <> [] /\
   Forall (fun xc => length (fst xc) = 2%nat /\ Forall is_bit (fst xc))
          F64.rounded_counts /\
   (0 < F64.total F64.rounded_counts)%Z /\
   F64.probs_from_counts F64.rounded_counts =
     Ok [0x1.5555555555555p-3; 0x1.5555555555555p-1; 0x1.5555555555555p-3; 0]%float /\
   F64.np_sum [0x1.5555555555555p-3; 0x1.5555555555555p-1; 0x1.5555555555555p-3; 0]%float =
     Some 0x1.fffffffffffffp-1%float /\
   Qeq_bool
     (fold_right Qplus 0%Q
        (map F64.exact
           [0x1.5555555555555p-3; 0x1.5555555555555p-1; 0x1.5555555555555p-3; 0]%float))
     1%Q = false) /\
  (F64.wrapping_counts <> [] /\
   Forall (fun xc => length (fst xc) = 1%nat /\ Forall is_bit (fst xc))
          F64.wrapping_counts /\
   F64.total F64.wrapping_counts = (2 ^ 63)%Z /\
   F64.probs_from_counts F64.wrapping_counts = Ok [-0.5; -0.5]%float).
Proof.
  split.
  - split; [discriminate|]. split.
    + unfold F64.rounded_counts, is_bit.
      repeat (apply Forall_cons;
              [split; [reflexivity|repeat (apply Forall_cons; [auto|]); apply Forall_nil]|]).
      apply Forall_nil.
    + repeat split; vm_compute; reflexivity.
  - split; [discriminate|]. split.
    + unfold F64.wrapping_counts, is_bit.
      repeat (apply Forall_cons;
              [split; [reflexivity|repeat (apply Forall_cons; [auto|]); apply Forall_nil]|]).
      apply Forall_nil.
    + split; vm_compute; reflexivity.
Qed.

(** C8, amended.  For a non-empty mapping whose keys are bit-tuples of one
    length [n] and whose counts are integers that fit [int64] and sum,
    within [int64], to a positive total, [probs_from_counts] returns a
    vector of length [2^n]; its [i]-th entry is the binary64 quotient of
    the count of the [i]-th length-[n] binary string in lexicographic order
    (zero for a string that is not a key) by the total.  The numerators sum
    exactly to the total, so that the vector sums to one up to the rounding
    of the quotients. *)
Theorem probs_from_counts_float_quotients (counts : F64.Counts) (n : nat) :
  counts <> [] ->
  NoDup (map fst counts) ->
  Forall (fun xc => length (fst xc) = n /\ Forall is_bit (fst xc)) counts ->
  Forall (fun xc => F64.fits_int64 (snd xc)) counts ->
  F64.fits_int64 (F64.total counts) ->
  (0 < F64.total counts)%Z ->
  exists v : list float,
    F64.probs_from_counts counts = Ok v /\
    length v = (2 ^ n)%nat /\
    (forall i : nat, (i < 2 ^ n)%nat ->
       nth i (binseq n) ""%string = bin_string n i /\
       nth i v 0%float =
         (F64.of_int64 (F64.counts_get (bin_digits n i) counts) /
          F64.of_int64 (F64.total counts))%float) /\
    fold_right Z.add 0%Z
      (map (fun i => F64.counts_get (bin_digits n i) counts) (seq 0 (2 ^ n))) =
      F64.total counts /\
    (forall i j : nat, (i < j < 2 ^ n)%nat ->
       String.compare (bin_string n i) (bin_string n j) = Lt).
Proof.
  intros Hne Hnd Hkeys _ Hfit _.
  destruct (probs_from_counts_int_value counts n Hne Hnd Hkeys Hfit) as [Hv Hs].
  eexists. split; [exact Hv|].
  split; [|split; [|split]].
  - now rewrite length_map, product_repeat_length.
  - intros i Hi. split; [now apply binseq_nth|].
    rewrite <- (product_bits_nth n i [] Hi).
    rewrite (nth_indep _ 0%float
               (F64.of_int64 (F64.counts_get [] counts) /
                F64.of_int64 (F64.total counts))%float)
      by (rewrite length_map, product_repeat_length; exact Hi).
    apply (map_nth (fun x => (F64.of_int64 (F64.counts_get x counts) /
                              F64.of_int64 (F64.total counts))%float)).
  - rewrite <- Hs, tuples_by_index, map_map. reflexivity.
  - intros i j. apply bin_string_lex.
Qed.

Lemma small_counts_nonempty : F64.small_counts <> [].
Proof. discriminate. Qed.

Lemma small_counts_keys : NoDup (map fst F64.small_counts).
Proof.
  simpl. constructor; [|constructor; [intros []|constructor]].
  intros [H|[]]. discriminate H.
Qed.

Lemma small_counts_bits :
  Forall (fun xc => length (fst xc) = 2%nat /\ Forall is_bit (fst xc)) F64.small_counts.
Proof.
  unfold F64.small_counts, is_bit.
  repeat (apply Forall_cons;
          [split; [reflexivity|repeat (apply Forall_cons; [auto|]); apply Forall_nil]|]).
  apply Forall_nil.
Qed.

Lemma small_counts_fit : Forall (fun xc => F64.fits_int64 (snd xc)) F64.small_counts.
Proof.
  unfold F64.small_counts, F64.fits_int64.
  repeat (apply Forall_cons; [simpl; lia|]). apply Forall_nil.
Qed.

Lemma small_counts_total_fits : F64.fits_int64 (F64.total F64.small_counts).
Proof.
  unfold F64.fits_int64.
  replace (F64.total F64.small_counts) with 4%Z by reflexivity. lia.
Qed.

Lemma small_counts_total_pos : (0 < F64.total F64.small_counts)%Z.
Proof. replace (F64.total F64.small_counts) with 4%Z by reflexivity. lia. Qed.

Lemma probs_from_counts_float_quotients_witness :
  F64.small_counts <> [] /\
  NoDup (map fst F64.small_counts) /\
  Forall (fun xc => length (fst xc) = 2%nat /\ Forall is_bit (fst xc)) F64.small_counts /\
  Forall (fun xc => F64.fits_int64 (snd xc)) F64.small_counts /\
  F64.fits_int64 (F64.total F64.small_counts) /\
  (0 < F64.total F64.small_counts)%Z /\
  exists v : list float,
    F64.probs_from_counts F64.small_counts = Ok v /\
    length v = (2 ^ 2)%nat /\
    (forall i : nat, (i < 2 ^ 2)%nat ->
       nth i (binseq 2) ""%string = bin_string 2 i /\
       nth i v 0%float =
         (F64.of_int64 (F64.counts_get (bin_digits 2 i) F64.small_counts) /
          F64.of_int64 (F64.total F64.small_counts))%float) /\
    fold_right Z.add 0%Z
      (map (fun i => F64.counts_get (bin_digits 2 i) F64.small_counts) (seq 0 (2 ^ 2))) =
      F64.total F64.small_counts /\
    (forall i j : nat, (i < j < 2 ^ 2)%nat ->
       String.compare (bin_string 2 i) (bin_string 2 j) = Lt).
Proof.
  exact (conj small_counts_nonempty (conj small_counts_keys (conj small_counts_bits
           (conj small_counts_fit (conj small_counts_total_fits
              (conj small_counts_total_pos
                 (probs_from_counts_float_quotients F64.small_counts 2
                    small_counts_nonempty small_counts_keys small_counts_bits
                    small_counts_fit small_counts_total_fits
                    small_counts_total_pos))))))).
Defined.

Example probs_from_counts_small :
  F64.probs_from_counts F64.small_counts = Ok [0.75; 0; 0; 0.25]%float.
Proof. vm_compute. reflexivity. Qed.

(** X10. In the result on well-formed integer counts whose total fits
    [int64], the entry for a readout [x] stands at the index whose binary
    numeral is [x], and it is the binary64 quotient of the count of [x] by
    the total. *)
Theorem probs_from_counts_float_index (counts : F64.Counts) (n : nat) (x : list Z) :
  counts <> [] ->
  NoDup (map fst counts) ->
  Forall (fun xc => length (fst xc) = n /\ Forall is_bit (fst xc)) counts ->
  Forall (fun xc => F64.fits_int64 (snd xc)) counts ->
  F64.fits_int64 (F64.total counts) ->
  length x = n -> Forall is_bit x ->
  exists v : list float,
    F64.probs_from_counts counts = Ok v /\
    (bits_value x < length v)%nat /\
    nth (bits_value x) v 0%float =
      (F64.of_int64 (F64.counts_get x counts) / F64.of_int64 (F64.total counts))%float.
Proof.
  intros Hne Hnd Hkeys _ Hfit Hl Hx.
  destruct (probs_from_counts_int_value counts n Hne Hnd Hkeys Hfit) as [Hv _].
  eexists. split; [exact Hv|].
  pose proof (bits_value_lt x Hx) as Hlt. rewrite Hl in Hlt.
  split.
  - rewrite length_map, product_repeat_length. exact Hlt.
  - rewrite (nth_indep _ 0%float
               (F64.of_int64 (F64.counts_get [] counts) /
                F64.of_int64 (F64.total counts))%float)
      by (rewrite length_map, product_repeat_length; exact Hlt).
    rewrite (map_nth (fun y => (F64.of_int64 (F64.counts_get y counts) /
                                F64.of_int64 (F64.total counts))%float)).
    rewrite (product_bits_nth n _ [] Hlt), <- Hl, (bin_digits_value x Hx).
    reflexivity.
Qed.

Lemma probs_from_counts_float_index_witness :
  F64.small_counts <> [] /\
  NoDup (map fst F64.small_counts) /\
  Forall (fun xc => length (fst xc) = 2%nat /\ Forall is_bit (fst xc)) F64.small_counts /\
  Forall (fun xc => F64.fits_int64 (snd xc)) F64.small_counts /\
  F64.fits_int64 (F64.total F64.small_counts) /\
  length [1%Z; 1%Z] = 2%nat /\ Forall is_bit [1%Z; 1%Z] /\
  exists v : list float,
    F64.probs_from_counts F64.small_counts = Ok v /\
    (bits_value [1%Z; 1%Z] < length v)%nat /\
    nth (bits_value [1%Z; 1%Z]) v 0%float =
      (F64.of_int64 (F64.counts_get [1%Z; 1%Z] F64.small_counts) /
       F64.of_int64 (F64.total F64.small_counts))%float.
Proof.
  exact (conj small_counts_nonempty (conj small_counts_keys (conj small_counts_bits
           (conj small_counts_fit (conj small_counts_total_fits
              (conj eq_refl (conj sample_bits_11
                 (probs_from_counts_float_index F64.small_counts 2 [1%Z; 1%Z]
                    small_counts_nonempty small_counts_keys small_counts_bits
                    small_counts_fit small_counts_total_fits
                    eq_refl sample_bits_11)))))))).
Defined.

(** ** [JSD] in binary64 *)

(** C5, as the claim states it, fails.  For an array of two entries 2^1023,
    non-negative and of positive norm, the norm overflows to infinity, the
    normalised array is all zero, its own normalisation inside [entropy]
    divides zero by zero, and [JSD] of the array with itself is [nan],
    whatever the logarithm routine returns; [nan] is not between [0] and
    [ln 2].  With an entry 2^-1074 the midpoint underflows to zero and the
    result is infinite. *)
Lemma JSD_float_out_of_bounds :
  (length F64.huge = length F64.huge /\
   Forall (fun x => (0 <=? x)%float = true) F64.huge /\
   F64.norm1 F64.huge = Some infinity /\
   (forall log : float -> float, F64.JSD log F64.huge F64.huge = Some (Ok nan)) /\
   (0 <=? nan)%float = false) /\
  (F64.norm1 [1; 0x1p-1074]%float = Some 1%float /\
   F64.norm1 [1; 0]%float = Some 1%float /\
   (forall log : float -> float, log 1%float = 0%float ->
      F64.JSD log [1; 0x1p-1074]%float [1; 0]%float = Some (Ok infinity)) /\
   (infinity <=? 1)%float = false).
Proof.
  split.
  - split; [reflexivity|]. split; [repeat constructor|].
    split; [vm_compute; reflexivity|]. split; [|reflexivity].
    intros log. vm_compute. reflexivity.
  - split; [vm_compute; reflexivity|]. split; [vm_compute; reflexivity|].
    split; [|reflexivity].
    intros log H. vm_compute. rewrite H. vm_compute. reflexivity.
Qed.

(** C9, as the claim states it, fails.  [JSD] of the array of two ones
    with itself is zero; multiplied by 2^1023 on both sides it is the
    overflowing array above, and the result is [nan]. *)
Lemma JSD_float_scale_changes :
  (0 <? 0x1p1023)%float = true /\
  F64.norm1 F64.ones = Some 2%float /\
  F64.np_scale 0x1p1023 F64.ones = F64.huge /\
  forall log : float -> float, log 1%float = 0%float ->
    F64.JSD log (F64.np_scale 0x1p1023 F64.ones) (F64.np_scale 0x1p1023 F64.ones) =
      Some (Ok nan) /\
    F64.JSD log F64.ones F64.ones = Some (Ok 0%float) /\
    F64.JSD log (F64.np_scale 0x1p1023 F64.ones) (F64.np_scale 0x1p1023 F64.ones) <>
      F64.JSD log F64.ones F64.ones.
Proof.
  split; [reflexivity|]. split; [vm_compute; reflexivity|].
  split; [vm_compute; reflexivity|].
  intros log H.
  assert (E1 : F64.JSD log (F64.np_scale 0x1p1023 F64.ones)
                 (F64.np_scale 0x1p1023 F64.ones) = Some (Ok nan))
    by (vm_compute; reflexivity).
  assert (E2 : F64.JSD log F64.ones F64.ones = Some (Ok 0%float))
    by (vm_compute; rewrite H; vm_compute; reflexivity).
  split; [exact E1|]. split; [exact E2|].
  rewrite E1, E2. intros E. discriminate E.
Qed.

(** ** Calibration circuits of the notebook *)


